(** * experimentator: Design, DesignTree and ExperimentSection

    A shallow embedding of [experimentator/design.py] and
    [experimentator/section.py], and the properties of the design
    specification checked against it.

    Conventions of the embedding.
    - A Python [dict] with string keys is a [gmap string value]; a dict
      whose insertion order is observed by the code (keyword arguments, the
      branch map) is an association list.
    - A function that can raise returns [result A = exn + A]; [inl e] is the
      exception [e] propagating to the caller.
    - A generator is the list of the values it yields.
    - A [Design] held by a tree is a value: the development covers trees
      in which no [Design] object is listed twice, so that the in-place
      [update] of one entry is the functional update of that entry.
    - The [Ordering] classes live in [experimentator/order.py]; they enter
      as an interface ([OrderingIface]). *)

From stdpp Require Import base option list gmap strings fin_maps sorting.
From Stdlib Require Import ZArith Lia.

Set Warnings "-register-all".

Open Scope string_scope.
Open Scope Z_scope.
Open Scope nat_scope.
Open Scope list_scope.

(** ** Python values, dicts and exceptions *)

Module Py.

(** The values an IV, an extra-data entry or a context entry holds. *)
Inductive value : Type :=
| VNone
| VBool (b : bool)
| VInt (z : Z)
| VStr (s : string).

#[global] Instance value_eq_dec : EqDecision value.
Proof. solve_decision. Defined.

(** Python truth value of an object. *)
Definition truthy (v : value) : bool :=
  match v with
  | VNone => false
  | VBool b => b
  | VInt z => negb (z =? 0)%Z
  | VStr s => negb (String.eqb s "")
  end.

(** The exception classes the two modules raise or let through. *)
Inductive exn : Type :=
| TypeError
| ValueError
| AttributeError
| IndexError
| KeyError
| StopIteration
| RecursionError.

#[global] Instance exn_eq_dec : EqDecision exn.
Proof. solve_decision. Defined.

Definition result (A : Type) : Type := (exn + A)%type.

Definition raise {A} (e : exn) : result A := inl e.

#[global] Instance result_ret : MRet result := λ A x, inr x.
#[global] Instance result_bind : MBind result :=
  λ A B f m, match m with inl e => inl e | inr x => f x end.
#[global] Instance result_fmap : FMap result :=
  λ A B f m, match m with inl e => inl e | inr x => inr (f x) end.

(** [for x in xs: acc = body(acc, x)], stopping at the first exception. *)
Fixpoint for_each {A S} (body : S → A → result S) (xs : list A) (acc : S)
  : result S :=
  match xs with
  | [] => inr acc
  | x :: xs' => acc' ← body acc x; for_each body xs' acc'
  end.

(** [d.update(other)]: the entries of [other] win. *)
Definition dict_update (d other : gmap string value) : gmap string value :=
  other ∪ d.

(** [dict(pairs)]: inserted left to right, so a later pair with the same
    key replaces an earlier one. *)
Definition dict_of_pairs (pairs : list (string * value)) : gmap string value :=
  foldl (λ d kv, <[kv.1 := kv.2]> d) ∅ pairs.

(** [zip(xs, ys)] stops at the shorter argument. *)
Fixpoint zip {A B} (xs : list A) (ys : list B) : list (A * B) :=
  match xs, ys with
  | x :: xs', y :: ys' => (x, y) :: zip xs' ys'
  | _, _ => []
  end.

(** [xs[i]] for a non-negative index. *)
Definition getitem {A} (xs : list A) (i : nat) : result A :=
  match xs !! i with Some x => inr x | None => raise IndexError end.

(** [xs[-1]]. *)
Definition getitem_last {A} (xs : list A) : result A :=
  match last xs with Some x => inr x | None => raise IndexError end.

End Py.
Import Py.

Abbreviation dict := (gmap string value).

(** ** itertools.product *)

Module Itertools.

(** The documented equivalent of [itertools.product] applied to the
    unpacked [pools]:
    [result = [[]]; for pool in pools: result = [x+[y] for x in result for y in pool]]. *)
Definition product {A} (pools : list (list A)) : list (list A) :=
  foldl (λ result pool,
           flat_map (λ x, List.map (λ y, x ++ [y]) pool) result)
        [[]] pools.

End Itertools.

(** ** Design: the factorial cross *)

(** [Design.full_cross(iv_names, iv_values)].  An entry [None] of
    [iv_values] (an IV declared without values) is not iterable, and
    [itertools.product] raises [TypeError] on it. *)
Definition Design_full_cross (iv_names : list string)
    (iv_values : list (option (list value))) : result (list dict) :=
  pools ← for_each (λ acc vs, match vs with
                              | Some l => inr (acc ++ [l])
                              | None => raise TypeError
                              end) iv_values [];
  inr (List.map (λ iv_combination, dict_of_pairs (zip iv_names iv_combination))
                (Itertools.product pools)).

(** ** numpy: the operations the design matrix goes through *)

Module Np.

(** A two-dimensional integer array: its second dimension and its rows.
    In an array every row has [ncols] cells ([wf]). *)
Record ndarray : Type := mk_ndarray {
  ncols : nat;
  rows : list (list Z)
}.

Definition wf (m : ndarray) : Prop :=
  Forall (λ row, length row = ncols m) (rows m).

(** [np.shape(m)[1]]. *)
Definition shape1 (m : ndarray) : nat := ncols m.

(** Column [j] of [m]. *)
Definition column (m : ndarray) (j : nat) : list Z :=
  List.map (λ row, nth j row 0%Z) (rows m).

(** [np.transpose(m)], as the list of the columns of [m]. *)
Definition transpose (m : ndarray) : list (list Z) :=
  List.map (column m) (seq 0 (ncols m)).

(** [np.unique(column)]: the sorted distinct elements. *)
Fixpoint insert_sorted (x : Z) (l : list Z) : list Z :=
  match l with
  | [] => [x]
  | y :: l' =>
      if (x <? y)%Z then x :: l
      else if (x =? y)%Z then l
      else y :: insert_sorted x l'
  end.

Definition unique (column : list Z) : list Z :=
  foldr insert_sorted [] column.

(** [factor_values == cell]: the element-wise comparison, a boolean mask. *)
Definition eq_mask (factor_values : list Z) (cell : Z) : list bool :=
  List.map (λ c, (c =? cell)%Z) factor_values.

(** [a[mask]]: the elements of [a] where the mask is true; a mask of
    another length is an [IndexError]. *)
Definition bool_index {A} (a : list A) (mask : list bool) : result (list A) :=
  if (length a =? length mask)%nat
  then inr (List.map fst (List.filter snd (zip a mask)))
  else raise IndexError.

End Np.

(** ** The Ordering interface

    [experimentator/order.py] is outside this development.  What
    [design.py] uses of an ordering object is: the two default
    constructors, [first_pass(conditions)], which stores the conditions
    and returns a pair [(iv_name, iv_values)], and [get_order(data)].
    [iv_name] is the empty tuple (here [None]) for an atomic ordering and
    a string for a non-atomic one. *)
Class OrderingIface : Type := {
  Ordering : Type;
  Shuffle_new : Ordering;
  Ordering_new : Ordering;
  ordering_first_pass :
    Ordering → list dict → Ordering * (option string * list value);
  ordering_get_order : Ordering → option dict → list dict
}.

(** Truth value of the [iv_name] an ordering returns: the empty tuple and
    the empty string are false. *)
Definition name_truthy (iv_name : option string) : bool :=
  match iv_name with
  | None => false
  | Some s => negb (String.eqb s "")
  end.

(** Truth value of an entry of [iv_values]: [None] and the empty list are
    false. *)
Definition values_truthy (iv_values : option (list value)) : bool :=
  match iv_values with
  | None | Some [] => false
  | Some (_ :: _) => true
  end.

Section DesignClass.
Context `{OrderingIface}.

Record Design : Type := mkDesign {
  iv_names : list string;
  iv_values : list (option (list value));
  design_matrix : option Np.ndarray;
  extra_data : dict;
  ordering : Ordering
}.

Definition heterogeneous_design_iv_name : string := "design".

(** [Design.__init__(ivs, design_matrix, ordering, extra_data)], with
    [ivs] as the list of [(name, values)] pairs. *)
Definition Design_init (ivs : list (string * option (list value)))
    (design_matrix : option Np.ndarray) (ordering : option Ordering)
    (extra_data : option dict) : result Design :=
  let self_iv_names := List.map fst ivs in
  let self_iv_values := List.map snd ivs in
  let self_extra_data := default ∅ extra_data in
  let self_ordering :=
    match ordering with
    | Some o => o
    | None => if design_matrix is None then Shuffle_new else Ordering_new
    end in
  if bool_decide (design_matrix = None ∧ Exists (λ vs, vs = None) self_iv_values)
  then raise TypeError
  else inr (mkDesign self_iv_names self_iv_values design_matrix
                     self_extra_data self_ordering).

(** [Design.get_order(data)]. *)
Definition Design_get_order (self : Design) (data : option dict) : list dict :=
  let condition_order := ordering_get_order (ordering self) data in
  List.map (λ condition, dict_update condition (extra_data self)) condition_order.

(** The decoded value of one cell (the body of the inner loop of
    [_parse_design_matrix]).  A value read back from [np.array(iv_values)]
    or from the matrix is taken for the Python value it equals; numpy's
    scalar types are not told apart. *)
Definition decode_cell (iv_values : option (list value))
    (factor_values : list Z) (design_matrix_value : Z) : result value :=
  if values_truthy iv_values
  then selected ← Np.bool_index (default [] iv_values)
                                (Np.eq_mask factor_values design_matrix_value);
       getitem selected 0
  else inr (VInt design_matrix_value).

(** One step of the inner loop of [_parse_design_matrix]: the condition
    updated with the decoded value of one column. *)
Definition decode_into (condition : dict)
    (p : string * (option (list value) * (list Z * Z))) : result dict :=
  let '(iv_name, (iv_values, (factor_values, design_matrix_value))) := p in
  v ← decode_cell iv_values factor_values design_matrix_value;
  inr (dict_update condition {[ iv_name := v ]}).

(** The body of the outer loop: the condition of one row, starting from
    a copy of the extra data. *)
Definition row_condition (self : Design) (values_per_factor : list (list Z))
    (row : list Z) : result dict :=
  for_each decode_into
    (zip (iv_names self) (zip (iv_values self) (zip values_per_factor row)))
    (extra_data self).

(** [Design._parse_design_matrix(design_matrix)]. *)
Definition Design_parse_design_matrix (self : Design)
    (design_matrix : Np.ndarray) : result (list dict) :=
  let values_per_factor := List.map Np.unique (Np.transpose design_matrix) in
  if existsb (λ p, values_truthy p.1
                   && negb (length (default [] p.1) =? length p.2))
             (zip (iv_values self) values_per_factor)
  then raise ValueError
  else
    for_each (λ conditions row,
      condition ← row_condition self values_per_factor row;
      inr (conditions ++ [condition]))
    (Np.rows design_matrix) [].

(** The conditions [Design.first_pass] hands to its ordering. *)
Definition Design_all_conditions (self : Design) : result (list dict) :=
  match design_matrix self with
  | Some m =>
      if negb (Np.shape1 m =? length (iv_names self))
      then raise TypeError
      else Design_parse_design_matrix self m
  | None => Design_full_cross (iv_names self) (iv_values self)
  end.

(** [Design.first_pass()]: the design with its ordering initialised, and
    the pair the ordering returns. *)
Definition Design_first_pass (self : Design)
  : result (Design * (option string * list value)) :=
  all_conditions ← Design_all_conditions self;
  let '(o, iv) := ordering_first_pass (ordering self) all_conditions in
  inr (mkDesign (iv_names self) (iv_values self) (design_matrix self)
                (extra_data self) o, iv).

(** [Design.update(names, values)]. *)
Definition Design_update (self : Design) (names : list string)
    (values : list (list value)) : Design :=
  mkDesign (iv_names self ++ names) (iv_values self ++ List.map Some values)
           (design_matrix self) (extra_data self) (ordering self).

(** [Design.is_heterogeneous]. *)
Definition Design_is_heterogeneous (self : Design) : bool :=
  bool_decide (heterogeneous_design_iv_name ∈ iv_names self).

(** [Design.branches]: the value list of the IV named [design] in
    [dict(zip(iv_names, iv_values))], the empty tuple when there is none.
    The outer [option] is the dict lookup, the inner one the value list or
    Python's [None]. *)
Definition ivs_lookup (names : list string)
    (values : list (option (list value))) (key : string)
  : option (option (list value)) :=
  foldl (λ found p, if String.eqb p.1 key then Some p.2 else found)
        None (zip names values).

Definition Design_branches (self : Design) : option (list value) :=
  default (Some []) (ivs_lookup (iv_names self) (iv_values self)
                                heterogeneous_design_iv_name).

End DesignClass.

(** ** DesignTree *)

Section DesignTreeClass.
Context `{OrderingIface}.

(** The namedtuple [Level(name, design)], once a lone design has been
    wrapped in a list. *)
Definition Level : Type := (string * list Design)%type.

(** The second component of a [levels_and_designs] entry as the caller
    writes it: a [Design], or a list of them. *)
Inductive design_entry : Type :=
| OneDesign (d : Design)
| DesignList (ds : list Design).

(** A named alternate ([other_designs]): a [DesignTree] instance, or a
    [levels_and_designs] input. *)
Inductive named_design (T : Type) : Type :=
| Prebuilt (t : T)
| RawSpec (spec : list (string * design_entry)).
Arguments Prebuilt {T} t.
Arguments RawSpec {T} spec.

(** [other_designs] and [branches] are dicts whose order is observed
    (keyword arguments; [list(self.branches.values())[0]]). *)
Inductive DesignTree : Type := mkDesignTree {
  levels_and_designs : list Level;
  other_designs : list (string * named_design DesignTree);
  branches : list (string * DesignTree)
}.

(** What [next(tree)] returns: a tree, or the branch dict. *)
Inductive cursor : Type :=
| CTree (t : DesignTree)
| CBranches (b : list (string * DesignTree)).

(** Ordered dicts with string keys. *)
Definition odict_lookup {A} (d : list (string * A)) (key : string) : option A :=
  snd <$> List.find (λ p, String.eqb p.1 key) d.

Definition odict_delete {A} (d : list (string * A)) (key : string)
  : list (string * A) :=
  List.filter (λ p, negb (String.eqb p.1 key)) d.

(** [d[key] = v] for a key that may or may not be present. *)
Fixpoint odict_set {A} (d : list (string * A)) (key : string) (v : A)
  : list (string * A) :=
  match d with
  | [] => [(key, v)]
  | p :: d' => if String.eqb p.1 key then (key, v) :: d'
               else p :: odict_set d' key v
  end.

(** [DesignTree.__len__]. *)
Fixpoint DesignTree_len (self : DesignTree) : nat :=
  match self with
  | mkDesignTree levels _ branches =>
      length levels +
      match branches with
      | [] => 0
      | (_, first) :: _ => DesignTree_len first
      end
  end.

(** [DesignTree.__getitem__] at a non-negative index. *)
Definition DesignTree_getitem (self : DesignTree) (item : nat) : result Level :=
  getitem (levels_and_designs self) item.

(** [DesignTree.__next__]. *)
Definition DesignTree_next (self : DesignTree) : result cursor :=
  if DesignTree_len self =? 1 then raise StopIteration
  else if length (levels_and_designs self) =? 1 then inr (CBranches (branches self))
  else inr (CTree (mkDesignTree (tail (levels_and_designs self))
                                (other_designs self) (branches self))).

(** The first loop of the body of [DesignTree.first_pass]: [first_pass]
    on every design of the lower level, collecting the IVs whose name is
    true. *)
Definition level_first_pass (designs : list Design)
  : result (list Design * (list string * list (list value))) :=
  for_each (λ acc design,
      let '(passed, (new_iv_names, new_iv_values)) := acc in
      '(design', (iv_name, iv_values)) ← Design_first_pass design;
      if name_truthy iv_name
      then inr (passed ++ [design'],
                (new_iv_names ++ [default "" iv_name], new_iv_values ++ [iv_values]))
      else inr (passed ++ [design'], (new_iv_names, new_iv_values)))
    designs ([], ([], [])).

(** The IVs the first loop collects from what the calls of [first_pass]
    returned: those whose name is true, in the order of the designs. *)
Definition new_ivs_of (results : list (Design * (option string * list value)))
  : list (string * list value) :=
  omap (λ r, if name_truthy r.2.1 then Some (default "" r.2.1, r.2.2) else None)
       results.

(** The second loop of the body: [update] on every design above. *)
Definition update_level (designs_above : list Design)
    (new_iv_names : list string) (new_iv_values : list (list value))
  : list Design :=
  List.map (λ design, Design_update design new_iv_names new_iv_values)
           designs_above.

(** A level as it stands when [first_pass] reaches it: the given level,
    its designs updated. *)
Definition updated_from (lower cur : Level) : Prop :=
  cur.1 = lower.1
  ∧ Forall2 (λ d dn, ∃ ns vs, dn = Design_update d ns vs) lower.2 cur.2.

(** The loop of [DesignTree.first_pass] over the adjacent pairs, bottom
    to top.  [level] is the lower level of the current pair and [above]
    the levels over it, nearest first.  The upper level of one pair is
    the lower level of the next one: it is passed on as updated.  The
    result lists the levels that went through [first_pass], bottom first,
    and the top level as updated. *)
Fixpoint climb (level : Level) (above : list Level)
  : result (list Level * Level) :=
  match above with
  | [] => inr ([], level)
  | level_above :: above' =>
      '(designs', (new_iv_names, new_iv_values)) ← level_first_pass level.2;
      let designs_above := update_level level_above.2 new_iv_names new_iv_values in
      '(passed, top) ← climb (level_above.1, designs_above) above';
      inr ((level.1, designs') :: passed, top)
  end.

(** The last loop of [DesignTree.first_pass]: [first_pass] on the top
    level's designs, each overwriting the pair kept so far. *)
Definition top_first_pass (designs : list Design)
  : result (list Design * (option string * list value)) :=
  for_each (λ acc design,
      '(design', iv) ← Design_first_pass design;
      inr (acc.1 ++ [design'], iv))
    designs ([], (None, [])).

(** [DesignTree.first_pass(levels_and_designs)]: the levels as the pass
    leaves them, and the pair it returns. *)
Definition DesignTree_first_pass (levels_and_designs : list Level)
  : result (list Level * (option string * list value)) :=
  match rev levels_and_designs with
  | [] => raise IndexError
  | bottom :: above =>
      '(passed, top) ← climb bottom above;
      '(top_designs, iv) ← top_first_pass top.2;
      inr ((top.1, top_designs) :: rev passed, iv)
  end.

(** The singleton check and the conversion to [Level]. *)
Definition normalise (spec : list (string * design_entry)) : list Level :=
  List.map (λ p, match p.2 with
                 | OneDesign d => (p.1, [d])
                 | DesignList ds => (p.1, ds)
                 end) spec.

(** [branch in bottom_level_design.branches]: the alternate itself is
    looked up among the values of the IV.  A value of an IV is [None], a
    bool, a number or a string, and none of them compares equal to a
    [DesignTree] ([DesignTree.__eq__] answers [None] for another type) or
    to a list of levels. *)
Definition value_eq_named (v : value) (branch : named_design DesignTree) : bool :=
  false.

Definition named_in (branch : named_design DesignTree) (values : list value) : bool :=
  existsb (λ v, value_eq_named v branch) values.

Definition is_DesignTree (branch : named_design DesignTree) : option DesignTree :=
  match branch with Prebuilt t => Some t | RawSpec _ => None end.

(** The dict comprehension that seeds [self.branches]. *)
Definition seed_branches (other_designs : list (string * named_design DesignTree))
    (bottom_branches : option (list value))
  : result (list (string * DesignTree)) :=
  for_each (λ acc p,
      match bottom_branches with
      | None => raise TypeError
      | Some values =>
          match named_in p.2 values, is_DesignTree p.2 with
          | true, Some t => inr (odict_set acc p.1 t)
          | _, _ => inr acc
          end
      end)
    other_designs [].

(** What iterating over the first argument of the constructor yields:
    the pairs of a list, wrapped and converted, or the levels of a
    [DesignTree] (through its [__getitem__]). *)
Definition iterate_levels (levels_and_designs : named_design DesignTree)
  : list Level :=
  match levels_and_designs with
  | RawSpec spec => normalise spec
  | Prebuilt t => match t with mkDesignTree levels _ _ => levels end
  end.

(** The branch map of a tree whose bottom level starts with
    [bottom_level_design]; [construct] is the recursive call of the
    constructor. *)
Definition resolve_branches
    (construct : named_design DesignTree →
                 list (string * named_design DesignTree) → result DesignTree)
    (bottom_level_design : Design)
    (other_designs : list (string * named_design DesignTree))
  : result (list (string * DesignTree)) :=
  if Design_is_heterogeneous bottom_level_design
  then
    seeded ← seed_branches other_designs (Design_branches bottom_level_design);
    match Design_branches bottom_level_design with
    | None => raise TypeError
    | Some names =>
        for_each (λ self_branches branch_name,
            match branch_name with
            | VStr name =>
                if bool_decide (is_Some (odict_lookup self_branches name))
                then inr self_branches
                else
                  match odict_lookup other_designs name with
                  | None => raise KeyError
                  | Some alternate =>
                      let designs_to_pass := odict_delete other_designs name in
                      tree ← construct alternate designs_to_pass;
                      inr (odict_set self_branches name tree)
                  end
            | _ => raise KeyError
            end)
          names seeded
    end
  else inr [].

(** [DesignTree.__init__], the first argument being a list of pairs or
    (in the recursive call) a [DesignTree], the second the keyword
    arguments.  Each recursive call receives one named alternate less;
    [fuel] bounds the nesting and [RecursionError] stands for exhausting
    it. *)
Fixpoint DesignTree_init_fuel (fuel : nat)
    (levels_and_designs : named_design DesignTree)
    (other_designs : list (string * named_design DesignTree))
  : result DesignTree :=
  let levels := iterate_levels levels_and_designs in
  bottom_level ← getitem_last levels;
  bottom_level_design ← getitem bottom_level.2 0;
  self_branches ←
    resolve_branches
      (match fuel with
       | O => λ _ _, raise RecursionError
       | S fuel' => DesignTree_init_fuel fuel'
       end)
      bottom_level_design other_designs;
  '(levels', (top_level_iv_names, _)) ← DesignTree_first_pass levels;
  if name_truthy top_level_iv_names
  then raise ValueError
  else inr (mkDesignTree levels' other_designs self_branches).

Definition DesignTree_init (levels_and_designs : named_design DesignTree)
    (other_designs : list (string * named_design DesignTree))
  : result DesignTree :=
  DesignTree_init_fuel (length other_designs) levels_and_designs other_designs.

End DesignTreeClass.

Arguments Prebuilt {_ _} t.
Arguments RawSpec {_ _} spec.

(** ** ExperimentSection *)

(** A [ChainMap] is the list of its maps, the one it writes to first.  A
    child context made by [new_child] shares the dicts of its parent: the
    model keeps every dict in one place, the section that owns it, and a
    section's context is its own dict followed by the dicts of its
    ancestors, read off the path to it ([parents]). *)
Definition ChainMap : Type := list dict.

(** The dict a [ChainMap] unpacks to: for a key in several maps the first
    map wins. *)
Definition chain_flatten (maps : ChainMap) : dict :=
  foldr (λ m acc, m ∪ acc) ∅ maps.

Section SectionClass.
Context `{OrderingIface}.

Inductive ExperimentSection : Type := mkSection {
  context_map : dict;
  tree : DesignTree;
  level : string;
  is_bottom_level : bool;
  children : list ExperimentSection;
  has_started : bool;
  has_finished : bool;
  next_level : option string;
  next_designs : option (list Design)
}.

(** [self.context] of a section reached through [parents]. *)
Definition context (parents : ChainMap) (self : ExperimentSection) : ChainMap :=
  context_map self :: parents.

Definition set_children (self : ExperimentSection)
    (children : list ExperimentSection) : ExperimentSection :=
  mkSection (context_map self) (tree self) (level self) (is_bottom_level self)
            children (has_started self) (has_finished self)
            (next_level self) (next_designs self).

Definition set_context_map (self : ExperimentSection) (m : dict)
  : ExperimentSection :=
  mkSection m (tree self) (level self) (is_bottom_level self)
            (children self) (has_started self) (has_finished self)
            (next_level self) (next_designs self).

(** [ExperimentSection.number_children].  A section whose [next_level]
    is [None] is a bottom-level one and has nothing to number. *)
Definition number_children (self : ExperimentSection) : ExperimentSection :=
  match next_level self with
  | None => self
  | Some name =>
      set_children self
        (imap (λ i child,
                 set_context_map child
                   (dict_update (context_map child)
                                {[ name := VInt (Z.of_nat (i + 1)) ]}))
              (children self))
  end.

(** [ExperimentSection.add_data]. *)
Definition add_data (self : ExperimentSection) (kwargs : dict)
  : ExperimentSection :=
  set_context_map self (dict_update (context_map self) kwargs).

(** How the call [self.append_child] binds the unpacked [new_context]
    to the signature [(self, to_start=False, **context)]: an entry
    named [self] or, next to an explicit [to_start=True], one named
    [to_start] is a [TypeError]; otherwise an entry named [to_start]
    is taken for the parameter. *)
Definition bind_append_child (explicit_to_start : bool) (new_context : dict)
  : result (bool * dict) :=
  if bool_decide (is_Some (new_context !! "self")) then raise TypeError
  else
    match new_context !! "to_start" with
    | Some v =>
        if explicit_to_start then raise TypeError
        else inr (truthy v, delete "to_start" new_context)
    | None => inr (explicit_to_start, new_context)
    end.

Section Construction.
(** The constructor, as [append_child] calls it on the child context
    and the peeled tree. *)
Variable new_section :
  ChainMap → dict → cursor → result ExperimentSection.
(** [design.order], applied to the unpacked context. *)
Variable order : Design → dict → result (list dict).

(** [ExperimentSection.append_child(to_start, context)]. *)
Definition append_child_with (parents : ChainMap) (self : ExperimentSection)
    (to_start : bool) (context_kwargs : dict) : result ExperimentSection :=
  peeled ← DesignTree_next (tree self);
  child ← new_section (context parents self) context_kwargs peeled;
  let children' :=
    if to_start then child :: children self
    else children self ++ [child] in
  inr (number_children (set_children self children')).

(** [ExperimentSection.append_design(design, to_start)]. *)
Definition append_design_with (parents : ChainMap) (self : ExperimentSection)
    (design : Design) (to_start : bool) : result ExperimentSection :=
  new_contexts ← order design (chain_flatten (context parents self));
  for_each (λ self new_context,
      '(to_start', kwargs) ← bind_append_child to_start new_context;
      append_child_with parents self to_start' kwargs)
    (if to_start then rev new_contexts else new_contexts) self.
End Construction.

(** [ExperimentSection.__init__(context, tree)], the context given as
    its first map [own] and the others.  A child is built on a cursor
    one level shorter; [fuel] bounds the nesting and [RecursionError]
    stands for exhausting it. *)
Fixpoint ExperimentSection_init_fuel (fuel : nat)
    (order : Design → dict → result (list dict))
    (parents : ChainMap) (own : dict) (tree : cursor)
  : result ExperimentSection :=
  match fuel with
  | O => raise RecursionError
  | S fuel' =>
      match tree with
      | CBranches _ => raise KeyError
      | CTree t =>
          level0 ← DesignTree_getitem t 0;
          if DesignTree_len t =? 1
          then inr (mkSection own t level0.1 true [] false false None None)
          else
            level1 ← DesignTree_getitem t 1;
            for_each (λ self design,
                append_design_with (ExperimentSection_init_fuel fuel' order)
                                   order parents self design false)
              level1.2
              (mkSection own t level0.1 false [] false false
                         (Some level1.1) (Some level1.2))
      end
  end.

Definition cursor_len (tree : cursor) : nat :=
  match tree with
  | CTree t => DesignTree_len t
  | CBranches _ => 0
  end.

Definition ExperimentSection_init (order : Design → dict → result (list dict))
    (parents : ChainMap) (own : dict) (tree : cursor)
  : result ExperimentSection :=
  ExperimentSection_init_fuel (S (cursor_len tree)) order parents own tree.

Definition append_child (order : Design → dict → result (list dict)) :=
  append_child_with (ExperimentSection_init order).

Definition append_design (order : Design → dict → result (list dict)) :=
  append_design_with (ExperimentSection_init order) order.

(** [ExperimentSection.generate_data], as the list of the contexts it
    yields. *)
Fixpoint generate_data (parents : ChainMap) (self : ExperimentSection)
  : list ChainMap :=
  match self with
  | mkSection own _ _ _ children _ _ _ _ =>
      flat_map (λ child,
                  if is_bottom_level child
                  then [context_map child :: own :: parents]
                  else generate_data (own :: parents) child)
               children
  end.

(** A call of [generate_data] run to exhaustion, with the tree it leaves. *)
Definition run_generate_data (parents : ChainMap) (self : ExperimentSection)
  : list ChainMap * ExperimentSection :=
  (generate_data parents self, self).

(** [ExperimentSection.__len__] and [__getitem__]. *)
Definition ExperimentSection_len (self : ExperimentSection) : nat :=
  length (children self).

Definition ExperimentSection_getitem (self : ExperimentSection) (item : nat)
  : result ExperimentSection :=
  getitem (children self) item.

(** The attributes of a [Design] instance: those [Design.__init__] sets
    and those of the class body. *)
Definition Design_attributes : list string :=
  [ "iv_names"; "iv_values"; "design_matrix"; "extra_data"; "ordering";
    "heterogeneous_design_iv_name"; "__init__"; "from_dict"; "__repr__";
    "__eq__"; "get_order"; "first_pass"; "update"; "full_cross";
    "_parse_design_matrix"; "is_heterogeneous"; "branches" ].

(** [getattr(design, name)] for an instance of [Design], as far as
    finding the attribute goes. *)
Definition Design_getattr (name : string) : result string :=
  if bool_decide (name ∈ Design_attributes) then inr name
  else raise AttributeError.

(** [design.order] applied to the unpacked context, for an instance of
    [Design].  The attribute is looked up before the arguments are
    unpacked; the class defines [get_order], taking the context as one
    positional argument, and nothing named [order]. *)
Definition Design_order (design : Design) (kwargs : dict)
  : result (list dict) :=
  _ ← Design_getattr "order";
  raise TypeError.

End SectionClass.

(** ** Specification-side definitions for the design matrix

    These follow the words of the specification, to be compared with
    [Design._parse_design_matrix]. *)

(** The number of distinct codes of a column. *)
Definition spec_distinct_codes (column : list Z) : nat :=
  size (list_to_set column : gset Z).

(** The place of a code in the ascending order of the distinct codes of
    its column: the number of distinct codes below it. *)
Definition spec_code_rank (column : list Z) (cell : Z) : nat :=
  size (list_to_set (List.filter (λ c, (c <? cell)%Z) column) : gset Z).

(** The value a cell stands for: the declared value at the place of the
    code, or the cell itself for an IV declared without values. *)
Definition spec_decoded (declared : option (list value)) (column : list Z)
    (cell : Z) : option value :=
  match declared with
  | Some (v :: vs) => (v :: vs) !! spec_code_rank column cell
  | _ => Some (VInt cell)
  end.

(** ** Specification-side definitions for the section tree

    These follow the words of the specification, to be compared with
    [generate_data]. *)

Section SectionSpec.
Context `{OrderingIface}.

(** Every strict descendant of a section with its context, depth first
    and left to right: a child, then the child's descendants, then the
    next child. *)
Fixpoint spec_descendants (parents : ChainMap) (self : ExperimentSection)
  : list (ChainMap * ExperimentSection) :=
  match self with
  | mkSection own _ _ _ children _ _ _ _ =>
      flat_map (λ child,
                  (context_map child :: own :: parents, child)
                  :: spec_descendants (own :: parents) child)
               children
  end.

(** The contexts of the deepest-level descendants, in that order. *)
Definition spec_deepest_contexts (parents : ChainMap)
    (self : ExperimentSection) : list ChainMap :=
  List.map fst
    (List.filter (λ p, is_bottom_level p.2) (spec_descendants parents self)).

(** The shape of a tree the constructor and [append_child] build: a
    bottom-level section has no children. *)
Fixpoint section_built (self : ExperimentSection) : bool :=
  match self with
  | mkSection _ _ _ bottom children _ _ _ _ =>
      (negb bottom || bool_decide (children = []))
      && forallb section_built children
  end.

End SectionSpec.

(** ** DesignTree._design_specs_to_designs

    [Design.from_dict] builds the ordering through a class looked up by
    name in [experimentator.order]; it enters as a function from an
    abstract design specification to what it returns, a [Level] when the
    specification has a name and a [Design] otherwise. *)

(** An element of [specs]: a dict, or a sequence of dicts (the designs of
    one level). *)
Inductive spec_item (design_spec : Type) : Type :=
| SpecDict (spec : design_spec)
| SpecList (specs : list design_spec).
Arguments SpecDict {design_spec} spec.
Arguments SpecList {design_spec} specs.

Section Specs.
Context `{OrderingIface}.

Inductive from_dict_result : Type :=
| Named (name : string) (design : Design)
| Unnamed (design : Design).

Definition result_name (r : from_dict_result) : option string :=
  match r with Named n _ => Some n | Unnamed _ => None end.

Definition result_design (r : from_dict_result) : Design :=
  match r with Named _ d => d | Unnamed d => d end.

Variable design_spec : Type.
Variable from_dict : design_spec → result from_dict_result.

(** The inner loop: the name and the designs of one level. *)
Definition level_of_specs (spec : list design_spec)
  : result (option string * list Design) :=
  for_each (λ acc design_spec,
      let '(name, designs) := acc in
      name_and_design ← from_dict design_spec;
      match name_and_design with
      | Unnamed d => inr (name, designs ++ [d])
      | Named n d =>
          if name_truthy name && negb (String.eqb n (default "" name))
          then raise ValueError
          else inr (Some n, designs ++ [d])
      end)
    spec (None, []).

(** [DesignTree._design_specs_to_designs(specs)], as the list of the
    pairs it yields. *)
Definition design_specs_to_designs (specs : list (spec_item design_spec))
  : result (list (option string * design_entry)) :=
  for_each (λ yielded spec,
      match spec with
      | SpecDict spec =>
          name_and_design ← from_dict spec;
          match name_and_design with
          | Unnamed d => inr (yielded ++ [(None, OneDesign d)])
          | Named n d => inr (yielded ++ [(Some n, OneDesign d)])
          end
      | SpecList spec =>
          '(name, designs) ← level_of_specs spec;
          inr (yielded ++ [(name, DesignList designs)])
      end)
    specs [].

(** What [from_dict] returned for the dicts of an element of [specs],
    the names these results carry, and the pair yielded for them. *)
Definition parsed_as (item : spec_item design_spec)
    (parsed : spec_item from_dict_result) : Prop :=
  match item, parsed with
  | SpecDict s, SpecDict r => from_dict s = inr r
  | SpecList ss, SpecList rs => Forall2 (λ s r, from_dict s = inr r) ss rs
  | _, _ => False
  end.

Definition item_names (parsed : spec_item from_dict_result) : list string :=
  match parsed with
  | SpecDict r => omap result_name [r]
  | SpecList rs => omap result_name rs
  end.

Definition yielded_pair (parsed : spec_item from_dict_result)
  : option string * design_entry :=
  match parsed with
  | SpecDict r => (result_name r, OneDesign (result_design r))
  | SpecList rs =>
      (last (omap result_name rs), DesignList (result_design <$> rs))
  end.

End Specs.

(** ** Auxiliary definitions for the design tree *)

Section TreeAux.
Context `{OrderingIface}.

(** The recursive call as the constructor makes it with [fuel]. *)
Definition construct_with (fuel : nat)
  : named_design DesignTree → list (string * named_design DesignTree) →
    result DesignTree :=
  match fuel with
  | O => λ _ _, raise RecursionError
  | S fuel' => DesignTree_init_fuel fuel'
  end.

(** A branch [b] filed under [n]: what [construct] returns for the named
    alternate [n] of [others] and the other named alternates. *)
Definition built_from
    (construct : named_design DesignTree →
                 list (string * named_design DesignTree) → result DesignTree)
    (others : list (string * named_design DesignTree))
    (n : string) (b : DesignTree) : Prop :=
  ∃ alt, odict_lookup others n = Some alt
         ∧ construct alt (odict_delete others n) = inr b.

(** [d'] holds the IVs, the design matrix and the extra data of [d]. *)
Definition same_ivs (d d' : Design) : Prop :=
  iv_names d' = iv_names d ∧ iv_values d' = iv_values d
  ∧ design_matrix d' = design_matrix d ∧ extra_data d' = extra_data d.

(** [d'] is [d] with IVs added after its own, as many names as value
    lists, the design matrix and the extra data being those of [d]. *)
Definition extends (d d' : Design) : Prop :=
  ∃ (ns : list string) (vs : list (list value)),
    length ns = length vs
    ∧ iv_names d' = iv_names d ++ ns
    ∧ iv_values d' = iv_values d ++ (Some <$> vs)
    ∧ design_matrix d' = design_matrix d
    ∧ extra_data d' = extra_data d.

Definition level_extends (l l' : Level) : Prop :=
  l'.1 = l.1 ∧ Forall2 extends l.2 l'.2.

End TreeAux.

(** ** Auxiliary definitions for the section tree *)

Section SectionAux.
Context `{OrderingIface}.

(** A child with the number [i + 1] written under [name] in its own map,
    as [number_children] leaves it. *)
Definition renumbered (name : string) (i : nat) (child : ExperimentSection)
  : ExperimentSection :=
  set_context_map child
    (dict_update (context_map child) {[ name := VInt (Z.of_nat (i + 1)) ]}).


(** A condition without an entry that the signature of [append_child]
    would take for [self] or [to_start]. *)
Definition plain (c : dict) : Prop :=
  c !! "self" = None ∧ c !! "to_start" = None.


(** The own maps between a deepest-level descendant and this section,
    the descendant's first, for every such descendant, depth first and left
    to right. *)
Fixpoint maps_below (self : ExperimentSection) : list (list dict) :=
  match self with
  | mkSection _ _ _ _ children _ _ _ _ =>
      flat_map (λ child,
                  if is_bottom_level child
                  then [[context_map child]]
                  else List.map (λ below, below ++ [context_map child])
                                (maps_below child))
               children
  end.

(** [next] applied [n] times, starting from a tree; [next] of the branch
    dict is a [TypeError], a dict being no iterator. *)
Fixpoint peel_times (n : nat) (tree : cursor) : result cursor :=
  match n with
  | O => inr tree
  | S n' =>
      match tree with
      | CTree t => peeled ← DesignTree_next t; peel_times n' peeled
      | CBranches _ => raise TypeError
      end
  end.

(** A section tree that follows its cursors: a section is a bottom-level
    one exactly when its cursor has logical length 1, its level is the name
    of the first level of its cursor, and each of its children sits on the
    cursor peeled from its own and follows its cursors in turn. *)
Fixpoint section_aligned (self : ExperimentSection) : Prop :=
  match self with
  | mkSection _ t lvl bottom children _ _ _ _ =>
      bottom = (DesignTree_len t =? 1)
      ∧ (∃ designs, levels_and_designs t !! 0 = Some (lvl, designs))
      ∧ (fix all (cs : list ExperimentSection) : Prop :=
           match cs with
           | [] => True
           | c :: cs' =>
               (DesignTree_next t = inr (CTree (tree c)) ∧ section_aligned c)
               ∧ all cs'
           end) children
  end.

(** What the loops of the constructor keep of the section under
    construction: it follows its cursors, on the tree and with the map the
    constructor was given. *)
Definition root_kept (own : dict) (t : DesignTree) (s : ExperimentSection)
  : Prop :=
  section_aligned s ∧ tree s = t ∧ context_map s = own.

Section Child.
Variable new_section : ChainMap → dict → cursor → result ExperimentSection.
Variable parents : ChainMap.

(** One child built by the constructor for the section [s] and the
    condition [c]. *)
Definition child_of (s : ExperimentSection) (c : dict)
    (child : ExperimentSection) : Prop :=
  ∃ peeled, DesignTree_next (tree s) = inr peeled
            ∧ new_section (context parents s) c peeled = inr child.

End Child.

End SectionAux.

(** ** Sample orderings *)

(** Modelled from the spec: the ordering classes of
    [experimentator/order.py], which is outside this development.  The
    collaborator contract has ordinary (atomic) orderings, whose
    [first_pass] returns an empty pair, and non-atomic ones, whose
    [first_pass] returns the name and the values of a synthetic IV.  Both
    keep the conditions handed to [first_pass] and give them back from
    [get_order].  They serve as concrete inputs only. *)
Inductive sample_ordering : Type :=
| Atomic (all_conditions : list dict)
| NonAtomic (iv_name : string) (iv_values : list value)
            (all_conditions : list dict).

Definition sample_orderings : OrderingIface := {|
  Ordering := sample_ordering;
  Shuffle_new := Atomic [];
  Ordering_new := Atomic [];
  ordering_first_pass o conditions :=
    match o with
    | Atomic _ => (Atomic conditions, (None, []))
    | NonAtomic n vs _ => (NonAtomic n vs conditions, (Some n, vs))
    end;
  ordering_get_order o _ :=
    match o with
    | Atomic cs => cs
    | NonAtomic _ _ cs => cs
    end
|}.

#[global] Existing Instance sample_orderings | 100.

(** ** Sample inputs *)

(** A heterogeneous tree built by the constructor: one explicit level
    whose design declares the branch [a], and a two-level alternate [a]. *)
Definition sample_branching_tree : result DesignTree :=
  DesignTree_init
    (RawSpec [("session",
               OneDesign (mkDesign ["design"] [Some [VStr "a"]] None ∅ (Atomic [])))])
    [("a", RawSpec [("block", OneDesign (mkDesign [] [] None ∅ (Atomic [])));
                    ("trial", OneDesign (mkDesign [] [] None ∅ (Atomic [])))])].

(** An initialised design without IVs, three trees over it and a section
    tree of two blocks with two trials and one trial. *)
Definition sample_design : Design :=
  mkDesign [] [] None ∅ (Atomic [∅]).

Definition sample_trial_tree : DesignTree :=
  mkDesignTree [("trial", [sample_design])] [] [].

Definition sample_block_tree : DesignTree :=
  mkDesignTree [("block", [sample_design]); ("trial", [sample_design])] [] [].

Definition sample_session_tree : DesignTree :=
  mkDesignTree [("session", [sample_design]); ("block", [sample_design]);
                ("trial", [sample_design])] [] [].

Definition sample_trial (number : Z) : ExperimentSection :=
  mkSection {[ "trial" := VInt number ]} sample_trial_tree "trial" true []
            false false None None.

Definition sample_block (number : Z) (trials : list ExperimentSection)
  : ExperimentSection :=
  mkSection {[ "block" := VInt number ]} sample_block_tree "block" false trials
            false false (Some "trial") (Some [sample_design]).

Definition sample_session : ExperimentSection :=
  mkSection ∅ sample_session_tree "session" false
            [ sample_block 1 [sample_trial 1; sample_trial 2];
              sample_block 2 [sample_trial 1] ]
            false false (Some "block") (Some [sample_design]).

(** A design matrix of two columns and four rows; a design that declares
    two values for the first column and none for the second, with extra
    data that also holds the first IV's name. *)
Definition sample_matrix : Np.ndarray :=
  Np.mk_ndarray 2 [[0; 5]; [1; 7]; [0; 9]; [1; 5]]%Z.

Definition sample_matrix_design : Design :=
  mkDesign ["side"; "delay"] [Some [VStr "left"; VStr "right"]; None]
           (Some sample_matrix)
           {[ "side" := VInt 99; "lab" := VBool true ]} (Atomic []).

(** A design whose matrix has two columns for one IV; a design whose
    matrix column has three distinct codes for two declared values; a
    design with a non-atomic ordering. *)
Definition sample_wide_design : Design :=
  mkDesign ["side"] [Some [VStr "left"; VStr "right"]]
           (Some sample_matrix) ∅ (Atomic []).

Definition sample_three_codes_design : Design :=
  mkDesign ["side"] [Some [VStr "left"; VStr "right"]]
           (Some (Np.mk_ndarray 1 [[0]; [1]; [2]]%Z)) ∅ (Atomic []).

Definition sample_nonatomic_design : Design :=
  mkDesign [] [] None ∅ (NonAtomic "order" [VInt 0; VInt 1] []).

(** A crossed design, a design declaring the branch [a], and a two-level
    tree with a non-atomic ordering at its bottom, as the constructor
    returns it. *)
Definition sample_crossed_design : Design :=
  mkDesign ["x"] [Some [VInt 1; VInt 2]] None ∅ (Atomic []).

Definition sample_heterogeneous_design : Design :=
  mkDesign ["design"] [Some [VStr "a"]] None ∅ (Atomic []).

Definition sample_two_levels : list Level :=
  [("block", [sample_crossed_design]); ("trial", [sample_nonatomic_design])].

Definition sample_prebuilt_tree : result DesignTree :=
  DesignTree_init
    (RawSpec [("block", OneDesign sample_crossed_design);
              ("trial", OneDesign sample_nonatomic_design)]) [].

(** The IV names of the first design of the first level of a tree. *)
Definition top_iv_names (t : DesignTree) : list string :=
  match levels_and_designs t with
  | (_, d :: _) :: _ => iv_names d
  | _ => []
  end.


(** An [order] method as a design of another class could provide it: the
    conditions of [get_order] on the unpacked context. *)
Definition sample_duck_order (design : Design) (kwargs : dict)
  : result (list dict) :=
  inr (Design_get_order design (Some kwargs)).

(** An initialised design of two conditions. *)
Definition sample_two_conditions_design : Design :=
  mkDesign ["x"] [Some [VInt 1; VInt 2]] None ∅
           (Atomic [ {[ "x" := VInt 1 ]}; {[ "x" := VInt 2 ]} ]).

(** * Properties *)

(** ** itertools.product: order, size and members *)

Section ProductFacts.
Context {A : Type}.
Implicit Types (pools : list (list A)) (acc : list (list A)).

Definition product_step acc (pool : list A) : list (list A) :=
  flat_map (λ x, List.map (λ y, x ++ [y]) pool) acc.

Lemma flat_map_extend (a : list A) (p : list A) (P : list (list A)) :
  flat_map (λ x, List.map (app x) P) (List.map (λ y, a ++ [y]) p)
  = List.map (app a) (flat_map (λ y, List.map (cons y) P) p).
Proof.
  induction p as [|y p IH]; simpl; [done|].
  rewrite IH, List.map_app, List.map_map. f_equal.
  apply List.map_ext. intros t. by rewrite <- app_assoc.
Qed.

Lemma product_from acc pools :
  foldl product_step acc pools
  = flat_map (λ x, List.map (app x) (Itertools.product pools)) acc.
Proof.
  revert acc. induction pools as [|p ps IH]; intros acc.
  - simpl. induction acc as [|a acc IHa]; simpl; [done|].
    by rewrite app_nil_r, <- IHa.
  - assert (Hcons : Itertools.product (p :: ps)
                    = flat_map (λ y, List.map (cons y) (Itertools.product ps)) p).
    { unfold Itertools.product. simpl. fold product_step.
      rewrite app_nil_r. rewrite IH.
      change (List.map (λ y, [y]) p) with (List.map (λ y, [] ++ [y]) p).
      rewrite flat_map_extend. simpl. by rewrite List.map_id. }
    simpl. rewrite IH, Hcons. unfold product_step.
    induction acc as [|a acc IHa]; simpl; [done|].
    rewrite flat_map_app, IHa. f_equal. apply flat_map_extend.
Qed.

Lemma product_cons (p : list A) pools :
  Itertools.product (p :: pools)
  = flat_map (λ x, List.map (cons x) (Itertools.product pools)) p.
Proof.
  unfold Itertools.product at 1. simpl. fold product_step.
  rewrite app_nil_r, product_from.
  change (List.map (λ y, [y]) p) with (List.map (λ y, [] ++ [y]) p).
  rewrite flat_map_extend. simpl. by rewrite List.map_id.
Qed.

Lemma product_nil : Itertools.product (@nil (list A)) = [[]].
Proof. done. Qed.

Lemma length_flat_map_const {B} (f : A → list B) (l : list A) k :
  (∀ x, length (f x) = k) → length (flat_map f l) = length l * k.
Proof.
  intros Hk. induction l as [|x l IH]; simpl; [done|].
  rewrite length_app, IH, Hk. lia.
Qed.

Lemma length_product pools :
  length (Itertools.product pools) = foldr (λ p n, length p * n) 1 pools.
Proof.
  induction pools as [|p ps IH]; [done|].
  rewrite product_cons. simpl.
  rewrite (length_flat_map_const _ _ (length (Itertools.product ps))).
  - by rewrite IH.
  - intros x. by rewrite length_map.
Qed.

Lemma elem_of_product pools (combo : list A) :
  combo ∈ Itertools.product pools ↔ Forall2 (λ v p, v ∈ p) combo pools.
Proof.
  revert combo. induction pools as [|p ps IH]; intros combo.
  - rewrite product_nil, list_elem_of_singleton. split.
    + intros ->. constructor.
    + by intros ->%Forall2_nil_inv_r.
  - rewrite product_cons, list_elem_of_In, in_flat_map. split.
    + intros (x & Hx & Hc). apply in_map_iff in Hc as (t & <- & Ht).
      constructor; [by apply list_elem_of_In|]. apply IH. by apply list_elem_of_In.
    + intros Hf. apply Forall2_cons_inv_r in Hf as (x & t & Hx & Ht & ->).
      exists x. split; [by apply list_elem_of_In|].
      apply in_map. apply list_elem_of_In. by apply IH.
Qed.
End ProductFacts.

(** ** Dicts built by insertion and update *)

Section DictFacts.
Implicit Types (d : dict) (pairs : list (string * value)).

Lemma dict_update_lookup d other k :
  dict_update d other !! k
  = match other !! k with Some v => Some v | None => d !! k end.
Proof.
  unfold dict_update. rewrite lookup_union.
  destruct (other !! k), (d !! k); done.
Qed.

Lemma dict_update_singleton d k v : dict_update d {[ k := v ]} = <[k := v]> d.
Proof. unfold dict_update. by rewrite insert_union_singleton_l. Qed.

Lemma foldl_insert_notin pairs d k :
  k ∉ pairs.*1 →
  foldl (λ d kv, <[kv.1 := kv.2]> d) d pairs !! k = d !! k.
Proof.
  revert d. induction pairs as [|[k' v'] pairs IH]; intros d Hk; simpl; [done|].
  simpl in Hk. apply not_elem_of_cons in Hk as [Hne Hk].
  rewrite IH by done. by rewrite lookup_insert_ne.
Qed.

Lemma zip_fst_subseteq {A B} (xs : list A) (ys : list B) x :
  x ∈ (zip xs ys).*1 → x ∈ xs.
Proof.
  revert ys. induction xs as [|a xs IH]; intros [|b ys]; simpl;
    try by intros ?%elem_of_nil.
  intros [->|Hin]%elem_of_cons; [left|right; eauto].
Qed.

Lemma foldl_insert_zip_lookup (names : list string) (vs : list value) d i n v :
  names !! i = Some n → vs !! i = Some v → n ∉ drop (S i) names →
  foldl (λ d kv, <[kv.1 := kv.2]> d) d (zip names vs) !! n = Some v.
Proof.
  revert vs d i. induction names as [|n0 names IH]; intros vs d i Hn Hv Hlast;
    [done|].
  destruct vs as [|v0 vs]; [done|]. simpl.
  destruct i as [|i]; simpl in *.
  - simplify_eq. rewrite drop_0 in Hlast.
    rewrite foldl_insert_notin; [by rewrite lookup_insert_eq|].
    intros Hin. by apply Hlast, (zip_fst_subseteq _ vs).
  - by eapply IH.
Qed.

Lemma dict_of_pairs_zip_lookup (names : list string) (vs : list value) i n v :
  names !! i = Some n → vs !! i = Some v → n ∉ drop (S i) names →
  dict_of_pairs (zip names vs) !! n = Some v.
Proof. apply foldl_insert_zip_lookup. Qed.

Lemma dict_of_pairs_zip_notin (names : list string) (vs : list value) k :
  k ∉ names → dict_of_pairs (zip names vs) !! k = None.
Proof.
  intros Hk. unfold dict_of_pairs. rewrite foldl_insert_notin; [done|].
  intros Hin. by apply Hk, (zip_fst_subseteq _ vs).
Qed.
End DictFacts.

(** ** C8: the full factorial cross *)

Lemma for_each_pools (pools : list (list value)) acc :
  for_each (λ acc (vs : option (list value)),
              match vs with
              | Some l => inr (acc ++ [l])
              | None => raise TypeError
              end) (Some <$> pools) acc = inr (acc ++ pools).
Proof.
  revert acc. induction pools as [|p ps IH]; intros acc; simpl.
  - by rewrite app_nil_r.
  - rewrite IH. by rewrite <- app_assoc.
Qed.

Lemma full_cross_values (iv_names : list string) (pools : list (list value)) :
  Design_full_cross iv_names (Some <$> pools)
  = inr (List.map (λ combo, dict_of_pairs (zip iv_names combo))
                  (Itertools.product pools)).
Proof. unfold Design_full_cross. by rewrite for_each_pools. Qed.

(** C8.  The full factorial cross of IVs that all have a value list yields
    one condition for every element of the Cartesian product of the value
    lists: [dict(zip(iv_names, combination))] for each combination, in the
    order of [itertools.product], in which the first IV varies slowest (the
    product over [p :: ps] is, for each value of [p] in turn, that value
    followed by each combination of [ps]); a condition maps every IV name to
    the value the combination has at its place; and the IVs a:[1,2],
    b:[10,20] give the four conditions of the specification in the order
    given there. *)
Theorem full_cross_product_order
    (iv_names : list string) (pools : list (list value)) :
  ∃ conditions,
    Design_full_cross iv_names (Some <$> pools) = inr conditions
    ∧ conditions = List.map (λ combo, dict_of_pairs (zip iv_names combo))
                            (Itertools.product pools)
    ∧ length conditions = foldr (λ p n, length p * n) 1 pools
    ∧ (∀ combo, combo ∈ Itertools.product pools
                ↔ Forall2 (λ v p, v ∈ p) combo pools)
    ∧ (∀ p ps, Itertools.product (p :: ps)
               = flat_map (λ x : value, List.map (cons x) (Itertools.product ps)) p)
    ∧ (∀ combo i n v,
         iv_names !! i = Some n → combo !! i = Some v →
         n ∉ drop (S i) iv_names →
         dict_of_pairs (zip iv_names combo) !! n = Some v)
    ∧ Design_full_cross ["a"; "b"]
        [Some [VInt 1; VInt 2]; Some [VInt 10; VInt 20]]
      = inr [ {[ "a" := VInt 1; "b" := VInt 10 ]};
              {[ "a" := VInt 1; "b" := VInt 20 ]};
              {[ "a" := VInt 2; "b" := VInt 10 ]};
              {[ "a" := VInt 2; "b" := VInt 20 ]} ].
Proof.
  eexists. split; [apply full_cross_values|].
  split; [done|]. split; [by rewrite length_map, length_product|].
  split; [apply elem_of_product|]. split; [apply product_cons|].
  split; [apply dict_of_pairs_zip_lookup|]. by vm_compute.
Qed.

(** ** C7: get_order and the extra data *)

Lemma lookup_map {A B} (f : A → B) (l : list A) (i : nat) :
  List.map f l !! i = f <$> l !! i.
Proof. revert i. induction l as [|x l IH]; intros [|i]; simpl; auto. Qed.

(** C7.  [Design.get_order] returns as many conditions as the ordering's
    [get_order], in the same order, each one the ordering's condition
    updated with the extra data: a key of the extra data has the extra
    data's value, whatever the ordering's condition holds for it, and any
    other key keeps the value of the ordering's condition. *)
Theorem get_order_extra_data_wins `{OrderingIface}
    (self : Design) (data : option dict) :
  length (Design_get_order self data)
  = length (ordering_get_order (ordering self) data)
  ∧ ∀ i condition,
      ordering_get_order (ordering self) data !! i = Some condition →
      ∃ merged,
        Design_get_order self data !! i = Some merged
        ∧ merged = dict_update condition (extra_data self)
        ∧ ∀ k, merged !! k = match extra_data self !! k with
                              | Some v => Some v
                              | None => condition !! k
                              end.
Proof.
  unfold Design_get_order. split; [by rewrite length_map|].
  intros i condition Hi. eexists. rewrite lookup_map, Hi. simpl.
  split; [done|]. split; [done|]. intros k. apply dict_update_lookup.
Qed.

(** ** C4: peeling a DesignTree *)

Lemma DesignTree_len_unfold `{OrderingIface} (t : DesignTree) :
  DesignTree_len t
  = length (levels_and_designs t)
    + match branches t with
      | [] => 0
      | (_, first) :: _ => DesignTree_len first
      end.
Proof. by destruct t. Qed.

(** C4 (as amended).  Peeling a tree of logical length 1 raises
    [StopIteration].  Otherwise, when exactly one explicit level is left,
    peeling returns the branch map, which is then not empty, whatever the
    logical length of its trees (the logical length of the tree is one more
    than that of the first branch, and need not be 2); and when another
    number of explicit levels is left, peeling returns a tree with the
    first level dropped and the named alternates and the branch map carried
    through unchanged, one shorter in logical length.  The logical length
    is the number of explicit levels plus, for a non-empty branch map, the
    logical length of its first tree. *)
Theorem peel_by_explicit_levels `{OrderingIface} (t : DesignTree) :
  (DesignTree_len t = 1 → DesignTree_next t = inl StopIteration)
  ∧ (DesignTree_len t ≠ 1 → length (levels_and_designs t) = 1 →
       DesignTree_next t = inr (CBranches (branches t))
       ∧ ∃ name first rest, branches t = (name, first) :: rest
                            ∧ DesignTree_len t = 1 + DesignTree_len first)
  ∧ (DesignTree_len t ≠ 1 → length (levels_and_designs t) ≠ 1 →
       ∃ t', DesignTree_next t = inr (CTree t')
             ∧ levels_and_designs t' = tail (levels_and_designs t)
             ∧ other_designs t' = other_designs t
             ∧ branches t' = branches t
             ∧ (levels_and_designs t ≠ [] →
                DesignTree_len t' + 1 = DesignTree_len t))
  ∧ DesignTree_len t
    = length (levels_and_designs t)
      + match branches t with
        | [] => 0
        | (_, first) :: _ => DesignTree_len first
        end.
Proof.
  split; [|split; [|split]].
  - intros HL. unfold DesignTree_next. by rewrite HL.
  - intros HL Hone. unfold DesignTree_next.
    destruct (Nat.eqb_spec (DesignTree_len t) 1) as [|_]; [done|].
    rewrite Hone. simpl. split; [done|].
    rewrite DesignTree_len_unfold, Hone in HL.
    rewrite DesignTree_len_unfold, Hone.
    destruct (branches t) as [|[name first] rest]; [simpl in HL; lia|].
    by exists name, first, rest.
  - intros HL Hmany. unfold DesignTree_next.
    destruct (Nat.eqb_spec (DesignTree_len t) 1) as [|_]; [done|].
    destruct (Nat.eqb_spec (length (levels_and_designs t)) 1) as [|_]; [done|].
    eexists. split; [done|]. simpl. repeat split.
    intros Hne. rewrite (DesignTree_len_unfold t).
    destruct (levels_and_designs t) as [|l ls]; [done|]. simpl. lia.
  - apply DesignTree_len_unfold.
Qed.

(** C4, as stated, fails: the tree above has logical length 3, so it is
    neither of length 1 nor of length 2 with a single heterogeneous level
    left, and peeling it returns the branch map, not a tree with the first
    level dropped. *)
Lemma peel_length_three_returns_branches :
  ∃ t, sample_branching_tree = inr t
       ∧ DesignTree_len t = 3
       ∧ length (levels_and_designs t) = 1
       ∧ DesignTree_next t = inr (CBranches (branches t))
       ∧ DesignTree_next t
         ≠ inr (CTree (mkDesignTree (tail (levels_and_designs t))
                                    (other_designs t) (branches t))).
Proof.
  eexists. split; [by vm_compute|]. repeat split; try by vm_compute.
Qed.

(** ** Loops *)

Section ForEachFacts.
Context {A S : Type}.
Implicit Types (body : S → A → result S) (xs : list A).

Lemma for_each_invariant (P : S → Prop) body xs acc r :
  P acc →
  (∀ a x a', P a → x ∈ xs → body a x = inr a' → P a') →
  for_each body xs acc = inr r → P r.
Proof.
  revert acc. induction xs as [|x xs IH]; intros acc Hacc Hstep; simpl.
  - by intros [= <-].
  - destruct (body acc x) as [e|acc'] eqn:Hb; [done|]. simpl.
    apply IH.
    + eapply Hstep; [done| |done]. left.
    + intros a y a' Ha Hy. apply Hstep; [done|by right].
Qed.

Lemma for_each_app body xs ys acc :
  for_each body (xs ++ ys) acc
  = for_each body xs acc ≫= for_each body ys.
Proof.
  revert acc. induction xs as [|x xs IH]; intros acc; simpl; [done|].
  destruct (body acc x); simpl; [done|]. apply IH.
Qed.
End ForEachFacts.

(** ** C9: generate_data *)

Section SectionFacts.
Context `{OrderingIface}.

Lemma ExperimentSection_children_ind (P : ExperimentSection → Prop) :
  (∀ self, Forall P (children self) → P self) → ∀ self, P self.
Proof.
  intros Hstep. fix IH 1. intros self. apply Hstep.
  destruct self as [? ? ? ? cs ? ? ? ?]. simpl.
  induction cs as [|c cs IHcs]; constructor; [apply IH|apply IHcs].
Qed.

Lemma section_built_unfold (self : ExperimentSection) :
  section_built self
  = (negb (is_bottom_level self) || bool_decide (children self = []))
    && forallb section_built (children self).
Proof. by destruct self. Qed.

Lemma generate_data_unfold parents (self : ExperimentSection) :
  generate_data parents self
  = flat_map (λ child,
               if is_bottom_level child
               then [context_map child :: context_map self :: parents]
               else generate_data (context_map self :: parents) child)
             (children self).
Proof. by destruct self. Qed.

Lemma spec_descendants_unfold parents (self : ExperimentSection) :
  spec_descendants parents self
  = flat_map (λ child,
               (context_map child :: context_map self :: parents, child)
               :: spec_descendants (context_map self :: parents) child)
             (children self).
Proof. by destruct self. Qed.

Lemma generate_data_spec (self : ExperimentSection) : ∀ parents,
  section_built self = true →
  generate_data parents self = spec_deepest_contexts parents self.
Proof.
  induction self as [self IH] using ExperimentSection_children_ind.
  intros parents Hb. unfold spec_deepest_contexts.
  rewrite generate_data_unfold, spec_descendants_unfold.
  rewrite section_built_unfold in Hb.
  apply andb_true_iff in Hb as [_ Hcs].
  revert IH Hcs. generalize (children self) as cs.
  induction cs as [|c cs IHcs]; intros IH Hcs; [done|].
  simpl in Hcs. apply andb_true_iff in Hcs as [Hc Hcs].
  apply Forall_cons in IH as [IHc IH].
  cbn [flat_map].
  rewrite List.filter_app, List.map_app.
  f_equal; [|by apply IHcs]. cbn [List.filter snd]. destruct (is_bottom_level c) eqn:Hbot; simpl.
  - rewrite section_built_unfold, Hbot in Hc. simpl in Hc.
    apply andb_true_iff in Hc as [Hnil%bool_decide_eq_true _].
    by rewrite spec_descendants_unfold, Hnil.
  - by apply IHc.
Qed.

Lemma length_filter_le {A} (f : A → bool) (l : list A) :
  length (List.filter f l) ≤ length l.
Proof. induction l as [|x l IH]; simpl; [done|]. destruct (f x); simpl; lia. Qed.

(** C9.  On a section tree in which bottom-level sections have no
    children (what the constructor and [append_child] build),
    [generate_data] yields the contexts of the deepest-level descendants
    in depth-first, left-to-right order, each context being the
    descendant's own map followed by the maps of its ancestors; the
    sequence has at most as many entries as the section has descendants;
    and a second call, after the first one ran to its end, yields the
    same sequence, the tree being left as it was. *)
Theorem generate_data_depth_first parents (self : ExperimentSection) :
  section_built self = true →
  generate_data parents self = spec_deepest_contexts parents self
  ∧ length (generate_data parents self)
    ≤ length (spec_descendants parents self)
  ∧ (let '(first, self1) := run_generate_data parents self in
     let '(second, self2) := run_generate_data parents self1 in
     first = second ∧ self2 = self).
Proof.
  intros Hb. rewrite generate_data_spec by done. split; [done|]. split.
  - unfold spec_deepest_contexts. rewrite length_map. apply length_filter_le.
  - done.
Qed.
End SectionFacts.

(** ** The shape of a built section tree *)

Section SectionBuilt.
Context `{OrderingIface}.
Implicit Types (self child : ExperimentSection).

Lemma section_built_set_context_map self m :
  section_built (set_context_map self m) = section_built self.
Proof. by destruct self. Qed.

Lemma forallb_imap_built (g : nat → ExperimentSection → ExperimentSection)
    (cs : list ExperimentSection) :
  (∀ i c, section_built (g i c) = section_built c) →
  forallb section_built (imap g cs) = forallb section_built cs.
Proof.
  revert g. induction cs as [|c cs IH]; intros g Hg; [done|].
  rewrite imap_cons. cbn [forallb]. rewrite Hg, IH; [done|].
  intros i c'. apply Hg.
Qed.

Lemma section_built_number_children self :
  is_bottom_level self = false →
  forallb section_built (children self) = true →
  section_built (number_children self) = true
  ∧ is_bottom_level (number_children self) = false.
Proof.
  intros Hbot Hcs. unfold number_children.
  destruct (next_level self) as [name|].
  - rewrite section_built_unfold. simpl. rewrite Hbot. simpl.
    rewrite forallb_imap_built; [done|].
    intros i c. apply section_built_set_context_map.
  - rewrite section_built_unfold, Hbot. by simpl.
Qed.

Lemma section_built_children self :
  section_built self = true → forallb section_built (children self) = true.
Proof. rewrite section_built_unfold. by intros [_ ?]%andb_true_iff. Qed.

Section Construction.
Variable new_section : ChainMap → dict → cursor → result ExperimentSection.
Variable order : Design → dict → result (list dict).
Hypothesis new_section_built : ∀ parents own tree child,
  new_section parents own tree = inr child → section_built child = true.

Lemma append_child_with_built parents self to_start kwargs self' :
  section_built self = true → is_bottom_level self = false →
  append_child_with new_section parents self to_start kwargs = inr self' →
  section_built self' = true ∧ is_bottom_level self' = false.
Proof.
  intros Hb Hbot. unfold append_child_with.
  destruct (DesignTree_next (tree self)) as [|peeled]; [done|]. simpl.
  destruct (new_section _ _ _) as [|child] eqn:Hchild; [done|]. simpl.
  intros [= <-]. apply section_built_number_children; [done|].
  apply new_section_built in Hchild. apply section_built_children in Hb.
  simpl. destruct to_start; simpl.
  - by rewrite Hchild, Hb.
  - rewrite forallb_app, Hb. simpl. by rewrite Hchild.
Qed.

Lemma append_design_with_built parents self design to_start self' :
  section_built self = true → is_bottom_level self = false →
  append_design_with new_section order parents self design to_start = inr self' →
  section_built self' = true ∧ is_bottom_level self' = false.
Proof.
  intros Hb Hbot. unfold append_design_with.
  destruct (order _ _) as [|new_contexts]; [done|]. simpl.
  apply (for_each_invariant
           (λ s, section_built s = true ∧ is_bottom_level s = false));
    [done|].
  intros a x a' [Ha Hbota] _.
  destruct (bind_append_child _ _) as [|[to_start' kwargs]]; [done|]. simpl.
  by apply append_child_with_built.
Qed.
End Construction.

Lemma ExperimentSection_init_fuel_built fuel order parents own tree self :
  ExperimentSection_init_fuel fuel order parents own tree = inr self →
  section_built self = true.
Proof.
  revert parents own tree self.
  induction fuel as [|fuel IH]; intros parents own tree self; [done|].
  simpl. destruct tree as [t|]; [|done].
  destruct (DesignTree_getitem t 0) as [|level0]; [done|]. simpl.
  destruct (DesignTree_len t =? 1); [by intros [= <-]|].
  destruct (DesignTree_getitem t 1) as [|level1]; [done|]. simpl.
  intros Hloop.
  eapply (for_each_invariant
            (λ s, section_built s = true ∧ is_bottom_level s = false)) in Hloop;
    [by destruct Hloop|done|].
  intros a x a' [Ha Hbota] _. by apply append_design_with_built.
Qed.

(** What the constructor returns has the shape [section_built]. *)
Lemma ExperimentSection_init_built order parents own tree self :
  ExperimentSection_init order parents own tree = inr self →
  section_built self = true.
Proof. apply ExperimentSection_init_fuel_built. Qed.

End SectionBuilt.

Lemma generate_data_depth_first_witness :
  generate_data [] sample_session = spec_deepest_contexts [] sample_session
  ∧ length (generate_data [] sample_session)
    ≤ length (spec_descendants [] sample_session)
  ∧ (let '(first, self1) := run_generate_data [] sample_session in
     let '(second, self2) := run_generate_data [] self1 in
     first = second ∧ self2 = sample_session).
Proof. apply (generate_data_depth_first [] sample_session). reflexivity. Defined.

(** The yields of the sample session: the three trials, each with its own
    map first and the maps of its block and of the session after it. *)
Example generate_data_sample_session :
  generate_data [] sample_session
  = [ [ {[ "trial" := VInt 1 ]}; {[ "block" := VInt 1 ]}; ∅ ];
      [ {[ "trial" := VInt 2 ]}; {[ "block" := VInt 1 ]}; ∅ ];
      [ {[ "trial" := VInt 1 ]}; {[ "block" := VInt 2 ]}; ∅ ] ].
Proof. reflexivity. Qed.

(** ** C10: a bottom-level section *)

(** C10.  A section constructed on a cursor of logical length 1 is a
    bottom-level section without children; [generate_data] on it yields
    nothing, its own context included; and no child can be appended to it,
    [append_child] raising [StopIteration]. *)
Theorem bottom_level_section_yields_nothing `{OrderingIface}
    (order : Design → dict → result (list dict))
    (parents : ChainMap) (own : dict) (t : DesignTree) :
  DesignTree_len t = 1 → levels_and_designs t ≠ [] →
  ∃ self,
    ExperimentSection_init order parents own (CTree t) = inr self
    ∧ is_bottom_level self = true
    ∧ children self = []
    ∧ generate_data parents self = []
    ∧ ∀ to_start kwargs,
        append_child order parents self to_start kwargs = inl StopIteration.
Proof.
  intros HL Hne. unfold ExperimentSection_init. simpl. rewrite HL. simpl.
  unfold DesignTree_getitem, getitem.
  destruct (levels_and_designs t) as [|level0 levels] eqn:Hlevels; [done|].
  simpl. eexists. split; [done|]. simpl. repeat split.
  intros to_start kwargs. unfold append_child, append_child_with. simpl.
  unfold DesignTree_next. by rewrite HL.
Qed.

Lemma bottom_level_section_yields_nothing_witness :
  ∃ self,
    ExperimentSection_init Design_order [] {[ "trial" := VInt 1 ]}
                           (CTree sample_trial_tree) = inr self
    ∧ is_bottom_level self = true
    ∧ children self = []
    ∧ generate_data [] self = []
    ∧ ∀ to_start kwargs,
        append_child Design_order [] self to_start kwargs = inl StopIteration.
Proof.
  apply (bottom_level_section_yields_nothing
           Design_order [] {[ "trial" := VInt 1 ]} sample_trial_tree).
  - reflexivity.
  - discriminate.
Defined.

(** ** numpy: sorted distinct codes and boolean masks *)

Section UniqueFacts.
Implicit Types (x y cell : Z) (l u col : list Z).

Lemma elem_of_insert_sorted x y l :
  y ∈ Np.insert_sorted x l ↔ y = x ∨ y ∈ l.
Proof.
  induction l as [|z l IH]; simpl.
  - rewrite list_elem_of_singleton, elem_of_nil. tauto.
  - destruct (Z.ltb_spec x z); [by rewrite elem_of_cons|].
    destruct (Z.eqb_spec x z) as [->|].
    + rewrite elem_of_cons. tauto.
    + rewrite !elem_of_cons, IH. tauto.
Qed.

Lemma insert_sorted_sorted x l :
  StronglySorted Z.lt l → StronglySorted Z.lt (Np.insert_sorted x l).
Proof.
  induction l as [|z l IH]; simpl; intros Hs.
  - repeat constructor.
  - apply StronglySorted_inv in Hs as [Hl Hz].
    destruct (Z.ltb_spec x z).
    + constructor; [by constructor|]. constructor; [done|].
      eapply Forall_impl; [done|]. simpl. lia.
    + destruct (Z.eqb_spec x z) as [->|]; [by constructor|].
      constructor; [by apply IH|].
      apply Forall_forall. intros y [->|Hy]%elem_of_insert_sorted; [lia|].
      by eapply Forall_forall in Hz.
Qed.

Lemma unique_sorted col : StronglySorted Z.lt (Np.unique col).
Proof.
  induction col as [|x col IH]; simpl; [constructor|].
  by apply insert_sorted_sorted.
Qed.

Lemma elem_of_unique col x : x ∈ Np.unique col ↔ x ∈ col.
Proof.
  induction col as [|y col IH]; simpl; [done|].
  rewrite elem_of_insert_sorted, elem_of_cons, IH. done.
Qed.

Lemma sorted_NoDup u : StronglySorted Z.lt u → NoDup u.
Proof.
  induction 1 as [|x u Hs IH Hx]; constructor; [|done].
  intros Hin. eapply Forall_forall in Hx; [|done]. lia.
Qed.

(** The number of codes of a sorted list below [cell] is the rank of
    [cell] among the distinct codes of the column. *)
Lemma rank_unique col cell :
  length (List.filter (λ c, (c <? cell)%Z) (Np.unique col))
  = spec_code_rank col cell.
Proof.
  unfold spec_code_rank.
  rewrite <- (size_list_to_set (C := gset Z)
                (List.filter (λ c, (c <? cell)%Z) (Np.unique col))).
  - f_equal. apply set_eq. intros x.
    rewrite !elem_of_list_to_set, !list_elem_of_In, !filter_In,
      <- !list_elem_of_In, elem_of_unique. done.
  - apply NoDup_ListNoDup, List.NoDup_filter, NoDup_ListNoDup, sorted_NoDup,
      unique_sorted.
Qed.

Lemma mask_above (l : list value) u cell :
  Forall (λ c, (cell < c)%Z) u →
  List.map fst (List.filter snd (zip l (Np.eq_mask u cell))) = [].
Proof.
  revert l. induction u as [|y u IH]; intros [|a l] Hu; simpl; try done.
  apply Forall_cons in Hu as [Hy Hu].
  destruct (Z.eqb_spec y cell); [lia|]. simpl. by apply IH.
Qed.

Lemma filter_below_above u cell :
  Forall (λ c, (cell < c)%Z) u → List.filter (λ c, (c <? cell)%Z) u = [].
Proof.
  induction 1 as [|y u Hy Hu IH]; simpl; [done|].
  destruct (Z.ltb_spec y cell); [lia|done].
Qed.

(** Indexing the declared values with the mask of a code picks the one
    value at the place of the code among the sorted distinct codes. *)
Lemma bool_index_sorted (l : list value) u cell :
  StronglySorted Z.lt u → cell ∈ u → length l = length u →
  ∃ v, Np.bool_index l (Np.eq_mask u cell) = inr [v]
       ∧ l !! length (List.filter (λ c, (c <? cell)%Z) u) = Some v.
Proof.
  unfold Np.bool_index, Np.eq_mask. intros Hs Hin Hlen.
  rewrite length_map, Hlen, Nat.eqb_refl.
  revert l Hlen Hin. induction Hs as [|y u Hs IH Hy]; intros l Hlen Hin.
  - by apply elem_of_nil in Hin.
  - destruct l as [|a l]; [done|]. simpl in Hlen.
    apply elem_of_cons in Hin as [->|Hin].
    + exists a. simpl. rewrite Z.eqb_refl, Z.ltb_irrefl. simpl.
      fold (Np.eq_mask u y). rewrite mask_above by done.
      by rewrite filter_below_above.
    + assert (y < cell)%Z by (by eapply Forall_forall in Hy).
      destruct (IH l) as (v & Hv & Hl); [lia|done|].
      exists v. simpl.
      destruct (Z.eqb_spec y cell); [lia|].
      destruct (Z.ltb_spec y cell); [|lia]. simpl.
      split; [|done]. by injection Hv as ->.
Qed.
End UniqueFacts.

(** ** Zipped lists and collecting loops *)

Section ZipFacts.
Context {A B : Type}.
Implicit Types (xs : list A) (ys : list B).

Lemma zip_lookup xs ys j x y :
  zip xs ys !! j = Some (x, y) ↔ xs !! j = Some x ∧ ys !! j = Some y.
Proof.
  revert ys j. induction xs as [|a xs IH]; intros [|b ys] [|j]; simpl;
    try (split; [done|by intros []]).
  - split; [by intros [= -> ->]|by intros [[= ->] [= ->]]].
  - apply IH.
Qed.

Lemma zip_length xs ys : length (zip xs ys) = length xs `min` length ys.
Proof.
  revert ys. induction xs as [|a xs IH]; intros [|b ys]; simpl; auto.
Qed.

Lemma zip_fst xs ys : length xs ≤ length ys → (zip xs ys).*1 = xs.
Proof.
  revert ys. induction xs as [|a xs IH]; intros [|b ys]; simpl; try done; try lia.
  intros Hlen. f_equal. apply IH. lia.
Qed.
End ZipFacts.

Lemma Forall_exists_Forall2 {A B} (R : A → B → Prop) (l : list A) :
  Forall (λ x, ∃ y, R x y) l → ∃ k, Forall2 R l k.
Proof.
  induction 1 as [|x l [y Hy] _ [k Hk]]; [by exists []|].
  exists (y :: k). by constructor.
Qed.

Lemma for_each_collect {A B} (f : A → result B) (xs : list A) (ys acc : list B) :
  Forall2 (λ x y, f x = inr y) xs ys →
  for_each (λ acc x, y ← f x; inr (acc ++ [y])) xs acc = inr (acc ++ ys).
Proof.
  intros Hf. revert acc. induction Hf as [|x y xs ys Hxy _ IH]; intros acc; simpl.
  - by rewrite app_nil_r.
  - rewrite Hxy. simpl. rewrite IH. by rewrite <- app_assoc.
Qed.

(** ** C6: decoding the design matrix *)

Section MatrixFacts.
Implicit Types (m : Np.ndarray) (col row : list Z).

Lemma length_unique col : length (Np.unique col) = spec_distinct_codes col.
Proof.
  unfold spec_distinct_codes.
  rewrite <- (size_list_to_set (C := gset Z) (Np.unique col)).
  - f_equal. apply set_eq. intros x.
    by rewrite !elem_of_list_to_set, elem_of_unique.
  - apply sorted_NoDup, unique_sorted.
Qed.

Lemma values_per_factor_lookup m j :
  j < Np.ncols m →
  List.map Np.unique (Np.transpose m) !! j = Some (Np.unique (Np.column m j)).
Proof.
  intros Hj. unfold Np.transpose. rewrite !lookup_map.
  by rewrite lookup_seq_lt.
Qed.

Lemma values_per_factor_length m :
  length (List.map Np.unique (Np.transpose m)) = Np.ncols m.
Proof. unfold Np.transpose. by rewrite !length_map, length_seq. Qed.

Lemma cell_in_column m row j cell :
  row ∈ Np.rows m → row !! j = Some cell → cell ∈ Np.column m j.
Proof.
  intros Hrow Hcell. unfold Np.column.
  apply list_elem_of_In, in_map_iff. exists row.
  split; [|by apply list_elem_of_In].
  apply nth_lookup_Some with (d := 0%Z) in Hcell. by rewrite <- Hcell.
Qed.

(** One cell: the code picks the declared value at its rank, or stands
    for itself. *)
Lemma decode_cell_spec (declared : option (list value)) col cell :
  cell ∈ col →
  (∀ v vs, declared = Some (v :: vs) →
           length (v :: vs) = spec_distinct_codes col) →
  ∃ v, decode_cell declared (Np.unique col) cell = inr v
       ∧ spec_decoded declared col cell = Some v.
Proof.
  intros Hcell Hlen. unfold decode_cell, spec_decoded.
  destruct declared as [[|v0 vs]|]; simpl; try by eexists.
  destruct (bool_index_sorted (v0 :: vs) (Np.unique col) cell)
    as (v & Hv & Hl).
  - apply unique_sorted.
  - by apply elem_of_unique.
  - rewrite length_unique. by apply Hlen.
  - exists v. rewrite Hv. simpl. split; [done|]. by rewrite <- rank_unique.
Qed.
End MatrixFacts.

Section ParseFacts.
Context `{OrderingIface}.

Lemma decode_row_loop
    (quads : list (string * (option (list value) * (list Z * Z))))
    (dvs : list value) (d : dict) :
  Forall2 (λ q v, decode_cell q.2.1 q.2.2.1 q.2.2.2 = inr v) quads dvs →
  for_each decode_into quads d
  = inr (foldl (λ d kv, <[kv.1 := kv.2]> d) d (zip quads.*1 dvs)).
Proof.
  intros Hq. revert d.
  induction Hq as [|[n [vals [fv cell]]] v quads dvs Hqv _ IH]; intros d;
    simpl; [done|].
  simpl in Hqv. rewrite Hqv. simpl. by rewrite IH, dict_update_singleton.
Qed.

Variables (self : Design) (m : Np.ndarray).
Hypothesis m_wf : Np.wf m.
Hypothesis names_ncols : length (iv_names self) = Np.ncols m.
Hypothesis values_ncols : length (iv_values self) = Np.ncols m.
Hypothesis declared_lengths : ∀ j v vs,
  iv_values self !! j = Some (Some (v :: vs)) →
  length (v :: vs) = spec_distinct_codes (Np.column m j).

Let values_per_factor := List.map Np.unique (Np.transpose m).

Lemma check_passes :
  existsb (λ p : option (list value) * list Z,
             values_truthy p.1
             && negb (length (default [] p.1) =? length p.2))
          (zip (iv_values self) values_per_factor) = false.
Proof.
  apply not_true_is_false. intros Hex.
  apply existsb_exists in Hex as ([declared codes] & Hin & Hbad).
  apply list_elem_of_In, list_elem_of_lookup in Hin as [j Hj].
  apply zip_lookup in Hj as [Hd Hc].
  assert (j < Np.ncols m) as Hlt.
  { apply lookup_lt_Some in Hd. lia. }
  unfold values_per_factor in Hc.
  rewrite values_per_factor_lookup in Hc by done. injection Hc as <-.
  simpl in Hbad. destruct declared as [[|v vs]|]; try done.
  rewrite length_unique, <- (declared_lengths j v vs Hd) in Hbad.
  simpl in Hbad. by rewrite Nat.eqb_refl in Hbad.
Qed.

Lemma quads_lookup (row : list Z) j name cell :
  length row = Np.ncols m →
  iv_names self !! j = Some name → row !! j = Some cell →
  ∃ declared,
    iv_values self !! j = Some declared
    ∧ zip (iv_names self) (zip (iv_values self) (zip values_per_factor row)) !! j
      = Some (name, (declared, (Np.unique (Np.column m j), cell))).
Proof.
  intros Hrow Hname Hcell.
  assert (j < Np.ncols m) as Hlt.
  { apply lookup_lt_Some in Hname. lia. }
  destruct (lookup_lt_is_Some_2 (iv_values self) j) as [declared Hd]; [lia|].
  exists declared. split; [done|].
  apply zip_lookup. split; [done|]. apply zip_lookup. split; [done|].
  apply zip_lookup. split; [|done]. by apply values_per_factor_lookup.
Qed.

Lemma quads_names (row : list Z) :
  length row = Np.ncols m →
  (zip (iv_names self) (zip (iv_values self) (zip values_per_factor row))).*1
  = iv_names self.
Proof.
  intros Hrow. apply zip_fst. rewrite !zip_length.
  unfold values_per_factor. rewrite values_per_factor_length. lia.
Qed.

Lemma row_condition_spec (row : list Z) :
  row ∈ Np.rows m →
  ∃ condition,
    row_condition self values_per_factor row = inr condition
    ∧ (∀ k, k ∉ iv_names self → condition !! k = extra_data self !! k)
    ∧ (∀ j name cell,
         iv_names self !! j = Some name → row !! j = Some cell →
         name ∉ drop (S j) (iv_names self) →
         ∃ declared v,
           iv_values self !! j = Some declared
           ∧ condition !! name = Some v
           ∧ spec_decoded declared (Np.column m j) cell = Some v).
Proof.
  intros Hin.
  assert (length row = Np.ncols m) as Hrow.
  { by eapply Forall_forall in m_wf. }
  set (quads := zip (iv_names self)
                    (zip (iv_values self) (zip values_per_factor row))).
  assert (Hall : Forall (λ q, ∃ v, decode_cell q.2.1 q.2.2.1 q.2.2.2 = inr v)
                        quads).
  { apply Forall_forall. intros [name [declared [codes cell]]] Hq.
    apply list_elem_of_lookup in Hq as [j Hq]. simpl.
    apply zip_lookup in Hq as [Hname Hq].
    apply zip_lookup in Hq as [Hd Hq]. apply zip_lookup in Hq as [Hc Hcell].
    assert (j < Np.ncols m) as Hlt.
    { apply lookup_lt_Some in Hname. lia. }
    unfold values_per_factor in Hc.
    rewrite values_per_factor_lookup in Hc by done. injection Hc as <-.
    destruct (decode_cell_spec declared (Np.column m j) cell) as (v & Hv & _).
    - by eapply cell_in_column.
    - intros v vs ->. by eapply declared_lengths.
    - by exists v. }
  apply Forall_exists_Forall2 in Hall as [dvs Hdvs].
  exists (foldl (λ d kv, <[kv.1 := kv.2]> d) (extra_data self)
                (zip quads.*1 dvs)).
  split; [by apply decode_row_loop|]. split.
  - intros k Hk. apply foldl_insert_notin. intros Hk'. apply Hk.
    apply zip_fst_subseteq in Hk'. unfold quads in Hk'.
    by rewrite quads_names in Hk'.
  - intros j name cell Hname Hcell Hlast.
    destruct (quads_lookup row j name cell) as (declared & Hd & Hq); try done.
    fold quads in Hq.
    destruct (Forall2_lookup_l _ _ _ _ _ Hdvs Hq) as (v & Hv & Hdec).
    simpl in Hdec. exists declared, v. split; [done|]. split.
    + apply foldl_insert_zip_lookup with (i := j); try done.
      * unfold quads. by rewrite quads_names.
      * unfold quads. by rewrite quads_names.
    + destruct (decode_cell_spec declared (Np.column m j) cell)
        as (v' & Hv' & Hspec).
      * by eapply cell_in_column.
      * intros v0 vs ->. by eapply declared_lengths.
      * congruence.
Qed.

Lemma parse_design_matrix_spec :
  ∃ conditions,
    Design_parse_design_matrix self m = inr conditions
    ∧ Forall2 (λ row condition,
                 row_condition self values_per_factor row = inr condition)
              (Np.rows m) conditions.
Proof.
  unfold Design_parse_design_matrix. fold values_per_factor.
  rewrite check_passes.
  destruct (Forall_exists_Forall2
              (λ row condition,
                 row_condition self values_per_factor row = inr condition)
              (Np.rows m)) as [conditions Hc].
  { apply Forall_forall. intros row Hrow.
    destruct (row_condition_spec row Hrow) as (c & Hc & _). by exists c. }
  exists conditions. split; [|done].
  by rewrite (for_each_collect _ _ conditions).
Qed.
End ParseFacts.



(** The conditions of the sample: the codes 0 and 1 of the first column
    stand for the two declared values and replace the extra data's entry of
    the same name; the cells of the second column are the values. *)
Example parse_design_matrix_sample :
  Design_parse_design_matrix sample_matrix_design sample_matrix
  = inr [ {[ "side" := VStr "left"; "delay" := VInt 5; "lab" := VBool true ]};
          {[ "side" := VStr "right"; "delay" := VInt 7; "lab" := VBool true ]};
          {[ "side" := VStr "left"; "delay" := VInt 9; "lab" := VBool true ]};
          {[ "side" := VStr "right"; "delay" := VInt 5; "lab" := VBool true ]} ].
Proof. by vm_compute. Qed.

(** ** C5: the exceptions of construction *)

Section FailureFacts.
Context `{OrderingIface}.

Lemma Design_init_no_values ivs ordering extra_data :
  Exists (λ iv : string * option (list value), iv.2 = None) ivs →
  Design_init ivs None ordering extra_data = inl TypeError.
Proof.
  intros Hex. unfold Design_init.
  rewrite bool_decide_eq_true_2; [done|]. split; [done|].
  apply Exists_exists in Hex as (iv & Hin & Hnone).
  apply Exists_exists. exists iv.2. split; [|done].
  apply list_elem_of_In, in_map, list_elem_of_In, Hin.
Qed.

Lemma first_pass_column_count self m :
  design_matrix self = Some m →
  Np.ncols m ≠ length (iv_names self) →
  Design_first_pass self = inl TypeError.
Proof.
  intros Hm Hn. unfold Design_first_pass, Design_all_conditions.
  rewrite Hm. unfold Np.shape1.
  destruct (Nat.eqb_spec (Np.ncols m) (length (iv_names self))); done.
Qed.

Lemma parse_design_matrix_code_count self m j v vs :
  j < Np.ncols m →
  iv_values self !! j = Some (Some (v :: vs)) →
  length (v :: vs) ≠ spec_distinct_codes (Np.column m j) →
  Design_parse_design_matrix self m = inl ValueError.
Proof.
  intros Hj Hd Hne. unfold Design_parse_design_matrix.
  rewrite (proj2 (existsb_exists _ _)); [done|].
  exists (Some (v :: vs), Np.unique (Np.column m j)). split.
  - apply list_elem_of_In, list_elem_of_lookup. exists j.
    apply zip_lookup. split; [done|]. by apply values_per_factor_lookup.
  - cbn [fst snd values_truthy default andb].
    rewrite length_unique. apply negb_true_iff, Nat.eqb_neq. exact Hne.
Qed.

Lemma first_pass_code_count self m j v vs :
  design_matrix self = Some m →
  Np.ncols m = length (iv_names self) →
  j < Np.ncols m →
  iv_values self !! j = Some (Some (v :: vs)) →
  length (v :: vs) ≠ spec_distinct_codes (Np.column m j) →
  Design_first_pass self = inl ValueError.
Proof.
  intros Hm Hn Hj Hd Hne. unfold Design_first_pass, Design_all_conditions.
  rewrite Hm. unfold Np.shape1. rewrite Hn, Nat.eqb_refl. simpl.
  by rewrite (parse_design_matrix_code_count self m j v vs).
Qed.

Lemma DesignTree_init_fuel_unfold fuel input other_designs :
  DesignTree_init_fuel fuel input other_designs
  = (bottom_level ← getitem_last (iterate_levels input);
     bottom_level_design ← getitem bottom_level.2 0;
     self_branches ←
       resolve_branches
         (match fuel with
          | O => λ _ _, raise RecursionError
          | S fuel' => DesignTree_init_fuel fuel'
          end)
         bottom_level_design other_designs;
     '(levels', (top_level_iv_names, _)) ←
       DesignTree_first_pass (iterate_levels input);
     if name_truthy top_level_iv_names
     then raise ValueError
     else inr (mkDesignTree levels' other_designs self_branches)).
Proof. by destruct fuel. Qed.

(** A true name returned by [DesignTree.first_pass] stops the
    constructor: it raises, and what it raises is [ValueError] when the
    first design of the bottom level is not heterogeneous. *)
Lemma init_fuel_top_level_error fuel input other_designs levels' name values :
  DesignTree_first_pass (iterate_levels input) = inr (levels', (name, values)) →
  name_truthy name = true →
  ∃ e, DesignTree_init_fuel fuel input other_designs = inl e
       ∧ ∀ bottom d,
           last (iterate_levels input) = Some bottom →
           bottom.2 !! 0 = Some d →
           Design_is_heterogeneous d = false →
           e = ValueError.
Proof.
  intros Hpass Hname. rewrite DesignTree_init_fuel_unfold.
  unfold getitem_last, getitem.
  destruct (last (iterate_levels input)) as [bottom|]; simpl;
    [|eexists; split; [done|]; by intros].
  destruct (bottom.2 !! 0) as [d|] eqn:Hd; simpl;
    [|eexists; split; [done|]; intros ? ? [= <-] ?; congruence].
  destruct (resolve_branches _ d other_designs) as [e|b] eqn:Hres; simpl.
  - exists e. split; [done|]. intros ? ? [= <-] Hd' Hhet.
    rewrite Hd in Hd'. injection Hd' as <-.
    unfold resolve_branches in Hres. by rewrite Hhet in Hres.
  - rewrite Hpass. simpl. rewrite Hname. eexists. split; [done|]. done.
Qed.
End FailureFacts.



(** ** C2: the bottom-up pass of a DesignTree *)

Section FirstPassFacts.
Context `{OrderingIface}.
Implicit Types (designs : list Design) (level upper lower : Level)
  (results : list (Design * (option string * list value))).

Lemma level_first_pass_from designs passed ns vs designs' names values :
  for_each (λ acc design,
      let '(passed, (new_iv_names, new_iv_values)) := acc in
      '(design', (iv_name, iv_values)) ← Design_first_pass design;
      if name_truthy iv_name
      then inr (passed ++ [design'],
                (new_iv_names ++ [default "" iv_name], new_iv_values ++ [iv_values]))
      else inr (passed ++ [design'], (new_iv_names, new_iv_values)))
    designs (passed, (ns, vs)) = inr (designs', (names, values)) →
  ∃ results,
    Forall2 (λ d r, Design_first_pass d = inr r) designs results
    ∧ designs' = passed ++ results.*1
    ∧ names = ns ++ (new_ivs_of results).*1
    ∧ values = vs ++ (new_ivs_of results).*2.
Proof.
  revert passed ns vs. induction designs as [|d designs IH];
    intros passed ns vs; simpl.
  - intros [= <- <- <-]. exists []. by rewrite !app_nil_r.
  - destruct (Design_first_pass d) as [|[d' [iv_name iv_values]]] eqn:Hd;
      [done|]. simpl.
    destruct (name_truthy iv_name) eqn:Hname; simpl; intros Hrest;
      apply IH in Hrest as (results & Hall & -> & -> & ->);
      exists ((d', (iv_name, iv_values)) :: results);
      (split; [by constructor|]); unfold new_ivs_of; simpl; rewrite Hname;
      simpl; by rewrite <- !app_assoc.
Qed.

Lemma level_first_pass_spec designs designs' names values :
  level_first_pass designs = inr (designs', (names, values)) →
  ∃ results,
    Forall2 (λ d r, Design_first_pass d = inr r) designs results
    ∧ designs' = results.*1
    ∧ names = (new_ivs_of results).*1
    ∧ values = (new_ivs_of results).*2.
Proof. apply level_first_pass_from. Qed.

Lemma top_first_pass_from designs passed iv0 designs' iv :
  for_each (λ acc design,
      '(design', iv) ← Design_first_pass design;
      inr (acc.1 ++ [design'], iv))
    designs (passed, iv0) = inr (designs', iv) →
  ∃ results,
    Forall2 (λ d r, Design_first_pass d = inr r) designs results
    ∧ designs' = passed ++ results.*1
    ∧ iv = default iv0 (snd <$> last results).
Proof.
  revert passed iv0. induction designs as [|d designs IH];
    intros passed iv0; simpl.
  - intros [= <- <-]. exists []. by rewrite app_nil_r.
  - destruct (Design_first_pass d) as [|[d' iv1]] eqn:Hd; [done|]. simpl.
    intros Hrest. apply IH in Hrest as (results & Hall & -> & ->).
    exists ((d', iv1) :: results). split; [by constructor|].
    split; [by rewrite <- app_assoc|].
    destruct results as [|r results]; [done|].
    rewrite last_cons_cons.
    destruct (last (r :: results)) eqn:Hlast; [done|].
    by apply last_None in Hlast.
Qed.

Lemma top_first_pass_spec designs designs' iv :
  top_first_pass designs = inr (designs', iv) →
  ∃ results,
    Forall2 (λ d r, Design_first_pass d = inr r) designs results
    ∧ designs' = results.*1
    ∧ iv = default (None, []) (snd <$> last results).
Proof. apply top_first_pass_from. Qed.

(** The levels as they stand when [first_pass] reaches them
    ([currents], bottom first), each above the bottom one being the
    given level with the IVs of the level below installed. *)
Lemma climb_spec above : ∀ level passed top,
  climb level above = inr (passed, top) →
  ∃ currents : list Level,
    currents !! 0 = Some level
    ∧ currents !! length above = Some top
    ∧ length passed = length above
    ∧ ∀ i cur upper,
        currents !! i = Some cur → above !! i = Some upper →
        ∃ results,
          Forall2 (λ d r, Design_first_pass d = inr r) cur.2 results
          ∧ passed !! i = Some (cur.1, results.*1)
          ∧ currents !! S i
            = Some (upper.1,
                    update_level upper.2 (new_ivs_of results).*1
                                         (new_ivs_of results).*2).
Proof.
  induction above as [|up above IH]; intros level passed top; simpl.
  - intros [= <- <-]. exists [level]. repeat split. by intros i cur upper _ ?.
  - destruct (level_first_pass level.2) as [|[designs' [ns vs]]] eqn:Hlevel;
      [done|]. simpl.
    destruct (climb _ above) as [|[passed' top']] eqn:Hclimb; [done|]. simpl.
    intros [= <- <-].
    apply IH in Hclimb as (currents & H0 & Hlast & Hlen & Hpairs).
    apply level_first_pass_spec in Hlevel as (results & Hall & -> & -> & ->).
    exists (level :: currents). repeat split; try done.
    + simpl. by rewrite Hlen.
    + intros [|i] cur upper; simpl.
      * intros [= <-] [= <-]. by exists results.
      * apply Hpairs.
Qed.
End FirstPassFacts.

Lemma for_each_pools_inv (ivs : list (option (list value))) acc pools :
  for_each (λ acc (vs : option (list value)),
              match vs with
              | Some l => inr (acc ++ [l])
              | None => raise TypeError
              end) ivs acc = inr pools →
  ∃ ps, ivs = Some <$> ps ∧ pools = acc ++ ps.
Proof.
  revert acc. induction ivs as [|[l|] ivs IH]; intros acc; simpl; [| |done].
  - intros [= <-]. exists []. by rewrite app_nil_r.
  - intros (ps & -> & ->)%IH. exists (l :: ps). by rewrite <- app_assoc.
Qed.

Lemma full_cross_inv (iv_names : list string) ivs conditions :
  Design_full_cross iv_names ivs = inr conditions →
  ∃ pools, ivs = Some <$> pools
           ∧ conditions = List.map (λ combo, dict_of_pairs (zip iv_names combo))
                                   (Itertools.product pools).
Proof.
  unfold Design_full_cross.
  destruct (for_each _ ivs []) as [|pools] eqn:Hpools; [done|]. simpl.
  intros [= <-]. apply for_each_pools_inv in Hpools as (ps & -> & ->).
  by exists ps.
Qed.

(** Crossing IVs to which [new] was appended: every condition holds, for
    each new name, one of the values that came with it. *)
Lemma cross_holds_new_ivs (names : list string) (pools : list (list value))
    (new : list (string * list value)) (c : dict) k name vs :
  length names = length pools →
  c ∈ List.map (λ combo, dict_of_pairs (zip (names ++ new.*1) combo))
               (Itertools.product (pools ++ new.*2)) →
  new !! k = Some (name, vs) →
  name ∉ drop (S k) new.*1 →
  ∃ v, v ∈ vs ∧ c !! name = Some v.
Proof.
  intros Hlen Hc Hk Hlast.
  apply list_elem_of_In, in_map_iff in Hc as (combo & <- & Hcombo).
  apply list_elem_of_In, elem_of_product in Hcombo.
  assert ((pools ++ new.*2) !! (length pools + k) = Some vs) as Hvs.
  { rewrite lookup_app_r by lia. replace (length pools + k - length pools) with k by lia.
    by rewrite list_lookup_fmap, Hk. }
  destruct (Forall2_lookup_r _ _ _ _ _ Hcombo Hvs) as (v & Hv & Hin).
  exists v. split; [done|].
  apply dict_of_pairs_zip_lookup with (i := length pools + k); [|done|].
  - rewrite lookup_app_r by lia. replace (length pools + k - length names) with k by lia.
    by rewrite list_lookup_fmap, Hk.
  - rewrite drop_app_ge by lia.
    by replace (S (length pools + k) - length names) with (S k) by lia.
Qed.

Section InstallFacts.
Context `{OrderingIface}.

Lemma Design_update_nil (d : Design) : Design_update d [] [] = d.
Proof. destruct d. unfold Design_update. simpl. by rewrite !app_nil_r. Qed.

Lemma updated_conditions_hold_new_ivs (d : Design)
    (new : list (string * list value)) r :
  design_matrix d = None →
  length (iv_names d) = length (iv_values d) →
  Design_first_pass (Design_update d new.*1 new.*2) = inr r →
  ∃ conditions,
    Design_all_conditions (Design_update d new.*1 new.*2) = inr conditions
    ∧ ∀ c k name vs,
        c ∈ conditions → new !! k = Some (name, vs) →
        name ∉ drop (S k) new.*1 →
        ∃ v, v ∈ vs ∧ c !! name = Some v.
Proof.
  intros Hm Hlen Hpass. unfold Design_first_pass in Hpass.
  destruct (Design_all_conditions _) as [|conditions] eqn:Hconds; [done|].
  exists conditions. split; [done|].
  unfold Design_all_conditions in Hconds. simpl in Hconds. rewrite Hm in Hconds.
  apply full_cross_inv in Hconds as (pools & Hpools & ->).
  intros c k name vs Hc Hk Hlast.
  assert (∃ ps, iv_values d = Some <$> ps ∧ pools = ps ++ new.*2)
    as (ps & Hps & ->).
  { exists (take (length (iv_values d)) pools).
    change (List.map Some new.*2) with (Some <$> new.*2) in Hpools.
    assert (length pools = length (iv_values d) + length new.*2) as Hl.
    { rewrite <- (length_fmap Some pools), <- Hpools, length_app.
      by rewrite length_fmap. }
    rewrite <- (take_drop (length (iv_values d)) pools) in Hpools at 1.
    rewrite fmap_app in Hpools.
    apply app_inj_1 in Hpools as [H1 H2];
      [|by rewrite length_fmap, length_take; lia].
    split; [done|].
    apply (inj (fmap Some)) in H2. rewrite H2. by rewrite take_drop. }
  eapply cross_holds_new_ivs; [|done..].
  by rewrite Hlen, Hps, length_fmap.
Qed.
End InstallFacts.

Lemma last_rev_head {A} (l : list A) : last (rev l) = head l.
Proof. rewrite rev_alt. apply (last_reverse l). Qed.

Section PassFacts.
Context `{OrderingIface}.
Implicit Types (level upper lower cur : Level).

Lemma updated_from_refl level : updated_from level level.
Proof.
  split; [done|]. apply Forall_Forall2_diag, Forall_forall.
  intros d _. exists [], []. by rewrite Design_update_nil.
Qed.

Lemma updated_from_update upper ns vs :
  updated_from upper (upper.1, update_level upper.2 ns vs).
Proof.
  split; [done|]. simpl. unfold update_level.
  change (List.map ?f ?l) with (f <$> l).
  apply Forall2_fmap_r, Forall_Forall2_diag, Forall_forall.
  intros d _. by exists ns, vs.
Qed.

Lemma currents_exist (bottom : Level) (above passed currents : list Level) :
  currents !! 0 = Some bottom →
  (∀ i cur upper,
     currents !! i = Some cur → above !! i = Some upper →
     ∃ results,
       Forall2 (λ d r, Design_first_pass d = inr r) cur.2 results
       ∧ passed !! i = Some (cur.1, results.*1)
       ∧ currents !! S i
         = Some (upper.1,
                 update_level upper.2 (new_ivs_of results).*1
                                      (new_ivs_of results).*2)) →
  ∀ i lower, (bottom :: above) !! i = Some lower →
    ∃ cur, currents !! i = Some cur ∧ updated_from lower cur.
Proof.
  intros H0 Hpairs. induction i as [|i IH]; intros lower Hi.
  - injection Hi as <-. exists bottom. split; [done|apply updated_from_refl].
  - simpl in Hi.
    destruct (lookup_lt_is_Some_2 (bottom :: above) i) as [below Hbelow].
    { apply lookup_lt_Some in Hi. simpl. lia. }
    destruct (IH below Hbelow) as (cur & Hcur & _).
    destruct (Hpairs i cur lower Hcur Hi) as (results & _ & _ & Hnext).
    eexists. split; [done|]. apply updated_from_update.
Qed.
End PassFacts.



(** The sample: the block design ends up with the IV [order] after its
    own, and its four conditions all hold [order]. *)
Example first_pass_sample_two_levels :
  ∃ levels' block,
    DesignTree_first_pass sample_two_levels = inr (levels', (None, []))
    ∧ levels' !! 0 = Some ("block", [block])
    ∧ iv_names block = ["x"; "order"]
    ∧ ordering block
      = Atomic [ {[ "x" := VInt 1; "order" := VInt 0 ]};
                 {[ "x" := VInt 1; "order" := VInt 1 ]};
                 {[ "x" := VInt 2; "order" := VInt 0 ]};
                 {[ "x" := VInt 2; "order" := VInt 1 ]} ].
Proof. eexists _, _. split; [by vm_compute|]. by vm_compute. Qed.


(** Only the pair of the last design of the top level reaches the
    constructor's test: with a non-atomic design followed by an atomic one
    at the top, the constructor returns a tree. *)
Example top_level_pair_of_last_design :
  ∃ t, DesignTree_init
         (RawSpec [("block", DesignList [sample_nonatomic_design;
                                         sample_crossed_design])]) []
       = inr t.
Proof. eexists. by vm_compute. Qed.

(** ** C3: the branches of a heterogeneous tree *)

(** The comprehension that seeds the branch map keeps nothing: it looks
    for the alternate itself, not for its name, among the branch names. *)
Lemma seed_branches_empty `{OrderingIface}
    (other_designs : list (string * named_design DesignTree)) names :
  seed_branches other_designs (Some names) = inr [].
Proof.
  unfold seed_branches.
  assert (∀ p : string * named_design DesignTree, named_in p.2 names = false)
    as Hin.
  { intros p. unfold named_in. by induction names. }
  induction other_designs as [|p others IH]; simpl; [done|].
  by rewrite Hin.
Qed.

(** C3 at the failing input.  The alternate [a] is supplied as a tree
    already constructed (two levels, a non-atomic ordering at the bottom,
    so that its block design holds the IVs [x] and [order]).  The branch
    [a] of the tree built over it is not the supplied tree: it is a tree
    constructed anew from the supplied tree's levels, whose designs went
    through [first_pass] a second time, so that its block design holds the
    IV [order] twice. *)
Theorem prebuilt_branch_is_rebuilt :
  ∃ supplied built rebuilt,
    sample_prebuilt_tree = inr supplied
    ∧ DesignTree_init
        (RawSpec [("session", OneDesign sample_heterogeneous_design)])
        [("a", Prebuilt supplied)] = inr built
    ∧ odict_lookup (branches built) "a" = Some rebuilt
    ∧ top_iv_names supplied = ["x"; "order"]
    ∧ top_iv_names rebuilt = ["x"; "order"; "order"]
    ∧ rebuilt ≠ supplied.
Proof.
  eexists _, _, _. split; [by vm_compute|]. split; [by vm_compute|].
  split; [by vm_compute|]. split; [by vm_compute|]. split; [by vm_compute|].
  intros Heq. apply (f_equal top_iv_names) in Heq. vm_compute in Heq.
  discriminate.
Qed.

(** ** C1: append_design *)

Lemma Design_order_raises `{OrderingIface} (design : Design) (kwargs : dict) :
  Design_order design kwargs = inl AttributeError.
Proof. reflexivity. Qed.

(** C1 at the failing input.  [append_design] looks up [order] on the
    design, and a [Design] has [get_order] and no [order]: for every
    section and every [Design], [append_design] raises [AttributeError]
    before any condition is obtained or any child constructed; so does the
    constructor on every cursor that is not terminal and whose next level
    lists a design, such as the two-level sample tree. *)
Theorem append_design_raises_AttributeError `{OrderingIface} :
  (∀ parents self design to_start,
     append_design Design_order parents self design to_start
     = inl AttributeError)
  ∧ (∀ parents own t level0 name1 design designs rest,
       levels_and_designs t = level0 :: (name1, design :: designs) :: rest →
       ExperimentSection_init Design_order parents own (CTree t)
       = inl AttributeError).
Proof.
  split.
  - intros parents self design to_start.
    reflexivity.
  - intros parents own t level0 name1 design designs rest Hlevels.
    unfold ExperimentSection_init. cbn [ExperimentSection_init_fuel].
    unfold DesignTree_getitem, getitem. rewrite Hlevels. cbn [lookup list_lookup].
    simpl.
    destruct (Nat.eqb_spec (DesignTree_len t) 1) as [Hone|_].
    { rewrite DesignTree_len_unfold, Hlevels in Hone. simpl in Hone. lia. }
    reflexivity.
Qed.

Example section_over_two_levels_raises :
  ExperimentSection_init Design_order [] ∅ (CTree sample_block_tree)
  = inl AttributeError.
Proof. by vm_compute. Qed.

(** * Further properties *)

(** ** Numbering the children *)

Section NumberingFacts.
Context `{OrderingIface}.
Implicit Types (self child : ExperimentSection) (cs : list ExperimentSection).

(** The map a child holds once it is numbered [i + 1] under [name]. *)
Lemma numbered_map_lookup (m : dict) name i k :
  dict_update m {[ name := VInt (Z.of_nat (i + 1)) ]} !! k
  = if decide (k = name) then Some (VInt (Z.of_nat (i + 1))) else m !! k.
Proof.
  rewrite dict_update_lookup. destruct (decide (k = name)) as [->|Hne].
  - by rewrite lookup_singleton_eq.
  - by rewrite lookup_singleton_ne.
Qed.

(** X1.  [number_children] on a section with a next level keeps the
    children in place and in number, leaves the section's own fields
    alone, and in the own map of the child at position [i] writes
    [i + 1] under the next level's name, touching no other key and
    nothing else of the child. *)
Theorem number_children_positions self name :
  next_level self = Some name →
  length (children (number_children self)) = length (children self)
  ∧ context_map (number_children self) = context_map self
  ∧ tree (number_children self) = tree self
  ∧ next_level (number_children self) = next_level self
  ∧ ∀ i child,
      children self !! i = Some child →
      ∃ child',
        children (number_children self) !! i = Some child'
        ∧ context_map child' !! name = Some (VInt (Z.of_nat i + 1))
        ∧ (∀ k, k ≠ name → context_map child' !! k = context_map child !! k)
        ∧ children child' = children child
        ∧ tree child' = tree child
        ∧ is_bottom_level child' = is_bottom_level child.
Proof.
  intros Hname. unfold number_children. rewrite Hname. simpl.
  split; [by rewrite length_imap|]. repeat split; try done.
  intros i child Hi. eexists. rewrite list_lookup_imap, Hi. simpl.
  split; [done|]. simpl. split.
  - rewrite numbered_map_lookup, decide_True by done.
    do 2 f_equal. lia.
  - split; [|done]. intros k Hk.
    by rewrite numbered_map_lookup, decide_False.
Qed.
End NumberingFacts.

Lemma number_children_positions_witness :
  length (children (number_children (sample_block 1 [sample_trial 7; sample_trial 7])))
  = 2.
Proof.
  exact (proj1 (number_children_positions
                  (sample_block 1 [sample_trial 7; sample_trial 7]) "trial" eq_refl)).
Defined.

(** ** Appending the conditions of a design *)

Lemma rev_reverse {A} (l : list A) : rev l = reverse l.
Proof. apply rev_alt. Qed.

Lemma imap_absorb {A B} (g : nat → A → B) (l l' : list A) :
  Forall2 (λ c c', ∀ i, g i c = g i c') l l' → imap g l = imap g l'.
Proof.
  intros Hll. revert g Hll.
  induction l as [|c l IH] in l' |- *; intros g Hll.
  - by apply Forall2_nil_inv_l in Hll as ->.
  - apply Forall2_cons_inv_l in Hll as (c' & k & Hc & Hk & ->).
    rewrite !imap_cons, Hc. f_equal. apply IH.
    eapply Forall2_impl; [done|]. intros x y Hxy i. apply Hxy.
Qed.

Section AppendFacts.
Context `{OrderingIface}.
Implicit Types (self child s : ExperimentSection) (l a b : list ExperimentSection).

Lemma renumbered_absorb name i j child :
  renumbered name i (renumbered name j child) = renumbered name i child.
Proof.
  unfold renumbered, set_context_map. simpl. f_equal.
  apply map_eq. intros k. rewrite !numbered_map_lookup.
  by destruct (decide (k = name)).
Qed.

Lemma set_children_set_children s l l' :
  set_children (set_children s l) l' = set_children s l'.
Proof. done. Qed.

Lemma number_children_absorb s l a b :
  number_children
    (set_children (number_children (set_children s l))
                  (a ++ children (number_children (set_children s l)) ++ b))
  = number_children (set_children s (a ++ l ++ b)).
Proof.
  destruct s as [m t lv bot cs hs hf [name|] nd]; unfold number_children;
    simpl; [|done].
  unfold set_children. simpl. f_equal.
  apply (imap_absorb (renumbered name)).
  apply Forall2_app; [by apply Forall_Forall2_diag, Forall_forall|].
  apply Forall2_app; [|by apply Forall_Forall2_diag, Forall_forall].
  apply Forall2_same_length_lookup_2; [by rewrite length_imap|].
  intros i x y Hx Hy i'. rewrite list_lookup_imap, Hy in Hx.
  injection Hx as <-. apply renumbered_absorb.
Qed.

Lemma number_children_fields s :
  tree (number_children s) = tree s
  ∧ context_map (number_children s) = context_map s
  ∧ next_level (number_children s) = next_level s.
Proof. destruct s as [? ? ? ? ? ? ? [name|] ?]; by unfold number_children. Qed.

Section Loops.
Variable new_section : ChainMap → dict → cursor → result ExperimentSection.
Variable parents : ChainMap.

Lemma child_of_same s s' c child :
  tree s' = tree s → context_map s' = context_map s →
  child_of new_section parents s' c child → child_of new_section parents s c child.
Proof.
  intros Ht Hc (peeled & Hp & Hn). exists peeled.
  unfold context in *. by rewrite <- Ht, <- Hc.
Qed.

Lemma bind_append_child_plain to_start c :
  plain c → bind_append_child to_start c = inr (to_start, c).
Proof.
  intros [Hself Hstart]. unfold bind_append_child.
  rewrite bool_decide_eq_false_2; [by rewrite Hstart|].
  rewrite Hself. by intros [? ?].
Qed.

Lemma append_child_with_inv s to_start c s1 :
  append_child_with new_section parents s to_start c = inr s1 →
  ∃ child,
    child_of new_section parents s c child
    ∧ s1 = number_children
             (set_children s (if to_start then child :: children s
                              else children s ++ [child])).
Proof.
  unfold append_child_with.
  destruct (DesignTree_next (tree s)) as [|peeled] eqn:Hpeel; simpl; [done|].
  destruct (new_section _ c peeled) as [|child] eqn:Hchild; simpl; [done|].
  intros [= <-]. exists child. split; [by exists peeled|done].
Qed.

Lemma append_loop to_start conds : ∀ s s',
  Forall plain conds →
  for_each (λ self new_context,
              '(to_start', kwargs) ← bind_append_child to_start new_context;
              append_child_with new_section parents self to_start' kwargs)
           conds s = inr s' →
  ∃ built,
    Forall2 (child_of new_section parents s) conds built
    ∧ s' = match conds with
           | [] => s
           | _ => number_children
                    (set_children s (if to_start then rev built ++ children s
                                     else children s ++ built))
           end.
Proof.
  induction conds as [|c conds IH]; intros s s' Hplain; simpl.
  - intros [= <-]. exists []. split; [constructor|done].
  - apply Forall_cons in Hplain as [Hc Hplain].
    rewrite bind_append_child_plain by done. simpl.
    destruct (append_child_with new_section parents s to_start c)
      as [|s1] eqn:Hstep; simpl; [done|].
    apply append_child_with_inv in Hstep as (child & Hchild & Hs1).
    intros Hrest. apply IH in Hrest as (built & Hbuilt & ->); [|done].
    destruct (number_children_fields
                (set_children s (if to_start then child :: children s
                                 else children s ++ [child])))
      as (Ht & Hm & _).
    rewrite <- Hs1 in Ht, Hm.
    exists (child :: built). split.
    + constructor; [done|].
      eapply Forall2_impl; [done|]. intros c' child'.
      apply child_of_same; [apply Ht|apply Hm].
    + destruct conds as [|c' conds']; [|clear Hbuilt].
      * apply Forall2_nil_inv_l in Hbuilt as ->. rewrite Hs1.
        destruct to_start; simpl; [done|]. done.
      * rewrite Hs1. destruct to_start.
        -- pose proof (number_children_absorb s (child :: children s)
                                              (rev built) []) as Habs.
           rewrite !app_nil_r in Habs. rewrite Habs. simpl.
           by rewrite <- app_assoc.
        -- pose proof (number_children_absorb s (children s ++ [child]) [] built)
             as Habs. simpl in Habs. rewrite Habs. by rewrite <- app_assoc.
Qed.
End Loops.
End AppendFacts.

(** X2.  [append_design], for any [order] method and any constructor:
    when [order] returns conditions none of which has an entry named
    [self] or [to_start], and the call returns, one child was built per
    condition, each by the constructor on this section's context, the
    condition and the peeled cursor; the children are the former ones
    followed by the new ones in the order of the conditions, or, with
    [to_start], the new ones in the order of the conditions followed by
    the former ones; all are renumbered by position.  With no condition
    the section is unchanged. *)
Theorem append_design_batch `{OrderingIface}
    (new_section : ChainMap → dict → cursor → result ExperimentSection)
    (order : Design → dict → result (list dict))
    (parents : ChainMap) (self : ExperimentSection) (design : Design)
    (to_start : bool) (conds : list dict) (self' : ExperimentSection) :
  order design (chain_flatten (context parents self)) = inr conds →
  Forall plain conds →
  append_design_with new_section order parents self design to_start = inr self' →
  ∃ built,
    Forall2 (child_of new_section parents self) conds built
    ∧ self' = match conds with
              | [] => self
              | _ => number_children
                       (set_children self
                          (if to_start then built ++ children self
                           else children self ++ built))
              end.
Proof.
  intros Horder Hplain. unfold append_design_with. rewrite Horder. simpl.
  destruct to_start.
  - intros Hloop. apply append_loop in Hloop as (built_r & Hbuilt & ->).
    2: { rewrite rev_reverse. by apply Forall_reverse. }
    exists (rev built_r). split.
    + rewrite <- (rev_involutive conds). rewrite !rev_reverse.
      apply Forall2_reverse. by rewrite <- rev_reverse.
    + destruct conds as [|c conds]; [done|].
      destruct (rev (c :: conds)) eqn:Hrev; [|done].
      apply (f_equal (@length _)) in Hrev. rewrite length_rev in Hrev. done.
  - intros Hloop. by apply append_loop in Hloop.
Qed.

Lemma append_design_batch_witness :
  ∃ self' built,
    append_design sample_duck_order [] (sample_block 1 [sample_trial 1])
                  sample_two_conditions_design true = inr self'
    ∧ Forall2 (child_of (ExperimentSection_init sample_duck_order) []
                        (sample_block 1 [sample_trial 1]))
              [ {[ "x" := VInt 1 ]}; {[ "x" := VInt 2 ]} ] built
    ∧ self' = number_children
                (set_children (sample_block 1 [sample_trial 1])
                              (built ++ [sample_trial 1])).
Proof.
  destruct (append_design sample_duck_order [] (sample_block 1 [sample_trial 1])
                          sample_two_conditions_design true)
    as [e|self'] eqn:Happ.
  - vm_compute in Happ. discriminate.
  - exists self'.
    destruct (append_design_batch
                (ExperimentSection_init sample_duck_order) sample_duck_order []
                (sample_block 1 [sample_trial 1]) sample_two_conditions_design
                true [ {[ "x" := VInt 1 ]}; {[ "x" := VInt 2 ]} ] self')
      as (built & Hbuilt & Hself').
    + by vm_compute.
    + repeat constructor.
    + exact Happ.
    + exists built. split; [reflexivity|]. split; [exact Hbuilt|exact Hself'].
Defined.

(** The sample: two trials put before the one there was, in the order of
    the conditions, and the three renumbered. *)
Example append_design_sample :
  ∃ self',
    append_design sample_duck_order [] (sample_block 1 [sample_trial 1])
                  sample_two_conditions_design true = inr self'
    ∧ context_map <$> children self'
      = [ {[ "x" := VInt 1; "trial" := VInt 1 ]};
          {[ "x" := VInt 2; "trial" := VInt 2 ]};
          {[ "trial" := VInt 3 ]} ].
Proof. eexists. split; by vm_compute. Qed.

(** ** add_data and the yielded contexts *)

Section AddDataFacts.
Context `{OrderingIface}.
Implicit Types (self child : ExperimentSection).

Lemma maps_below_unfold self :
  maps_below self
  = flat_map (λ child,
                if is_bottom_level child
                then [[context_map child]]
                else List.map (λ below, below ++ [context_map child])
                              (maps_below child))
             (children self).
Proof. by destruct self. Qed.

Lemma generate_data_maps_below self : ∀ parents,
  generate_data parents self
  = List.map (λ below, below ++ context_map self :: parents) (maps_below self).
Proof.
  induction self as [self IH] using ExperimentSection_children_ind.
  intros parents. rewrite generate_data_unfold, maps_below_unfold.
  revert IH. generalize (children self) as cs.
  induction cs as [|c cs IHcs]; intros IH; [done|].
  apply Forall_cons in IH as [IHc IH]. cbn [flat_map].
  rewrite List.map_app, <- IHcs by done. f_equal.
  destruct (is_bottom_level c); [done|].
  rewrite IHc, List.map_map. apply List.map_ext. intros below.
  by rewrite <- app_assoc.
Qed.

Lemma chain_flatten_below (below : list dict) (m : dict) (parents : ChainMap) k :
  Forall (λ layer : dict, layer !! k = None) below →
  is_Some (m !! k) →
  chain_flatten (below ++ m :: parents) !! k = m !! k.
Proof.
  intros Hbelow [v Hv]. induction Hbelow as [|layer below Hlayer _ IH]; simpl.
  - by rewrite lookup_union_l', Hv.
  - by rewrite lookup_union_r.
Qed.

(** X3.  [add_data] on a section after its tree is built: [generate_data]
    yields the contexts of the same descendants in the same order, each
    differing from the one before only in this section's map, which now
    is the former one updated with the keyword arguments; and every
    yielded context resolves a key of the keyword arguments to the added
    value unless a section below holds the key in its own map. *)
Theorem add_data_reaches_every_leaf (parents : ChainMap) self (kwargs : dict) :
  generate_data parents self
  = List.map (λ below, below ++ context_map self :: parents) (maps_below self)
  ∧ generate_data parents (add_data self kwargs)
    = List.map (λ below,
                  below ++ dict_update (context_map self) kwargs :: parents)
               (maps_below self)
  ∧ ∀ below k v,
      below ∈ maps_below self → kwargs !! k = Some v →
      Forall (λ layer : dict, layer !! k = None) below →
      chain_flatten (below ++ dict_update (context_map self) kwargs :: parents) !! k
      = Some v.
Proof.
  split; [apply generate_data_maps_below|]. split.
  - rewrite generate_data_maps_below. by destruct self.
  - intros below k v _ Hk Hbelow.
    rewrite chain_flatten_below; [|done|].
    + by rewrite dict_update_lookup, Hk.
    + rewrite dict_update_lookup, Hk. by eexists.
Qed.
End AddDataFacts.

(** ** Peeling again and again *)

Section PeelFacts.
Context `{OrderingIface}.

Lemma DesignTree_next_tail (t : DesignTree) :
  2 ≤ length (levels_and_designs t) →
  DesignTree_next t
  = inr (CTree (mkDesignTree (tail (levels_and_designs t))
                             (other_designs t) (branches t))).
Proof.
  intros Hlen. unfold DesignTree_next.
  destruct (Nat.eqb_spec (DesignTree_len t) 1) as [Hone|_].
  { rewrite DesignTree_len_unfold in Hone. unfold Level in *. lia. }
  destruct (Nat.eqb_spec (length (levels_and_designs t)) 1) as [Hone|_]; [|done].
  unfold Level in *. lia.
Qed.

Lemma drop_tail {A} (l : list A) k : drop k (tail l) = drop (S k) l.
Proof. destruct l; simpl; [by rewrite drop_nil|done]. Qed.

Lemma peel_times_below k : ∀ t : DesignTree,
  k < length (levels_and_designs t) →
  peel_times k (CTree t)
  = inr (CTree (mkDesignTree (drop k (levels_and_designs t))
                             (other_designs t) (branches t))).
Proof.
  induction k as [|k IH]; intros t Hk; simpl.
  - by destruct t.
  - rewrite DesignTree_next_tail by lia. simpl. rewrite IH.
    + simpl. by rewrite drop_tail.
    + simpl. destruct (levels_and_designs t); simpl in *; lia.
Qed.

Lemma peel_times_add n m (c : cursor) :
  peel_times (n + m) c = peel_times n c ≫= peel_times m.
Proof.
  revert c. induction n as [|n IH]; intros c; [done|].
  simpl. destruct c as [t|]; [|done].
  destruct (DesignTree_next t); simpl; [done|]. apply IH.
Qed.

Lemma peel_times_last (t : DesignTree) :
  levels_and_designs t ≠ [] →
  peel_times (length (levels_and_designs t)) (CTree t)
  = if match branches t with
       | [] => 0
       | (_, first) :: _ => DesignTree_len first
       end =? 0
    then inl StopIteration
    else inr (CBranches (branches t)).
Proof.
  intros Hne.
  destruct (length (levels_and_designs t)) as [|n] eqn:Hlen.
  { by destruct (levels_and_designs t). }
  replace (S n) with (n + 1) by lia.
  rewrite peel_times_add, peel_times_below by lia. simpl.
  unfold DesignTree_next. simpl.
  rewrite length_drop, Hlen. replace (S n - n) with 1 by lia. simpl.
  destruct (branches t) as [|[name first] rest]; [done|].
  destruct (DesignTree_len first); simpl; [done|].
  by destruct (S n - n).
Qed.

(** X4.  Peeling a tree again and again: as long as fewer peels were made
    than there are explicit levels, the cursor is the tree with that many
    first levels dropped, named alternates and branch map unchanged.  One
    more peel, which starts from a single explicit level, raises
    [StopIteration] when the branch map is empty, and returns the branch
    map when its first tree has levels. *)
Theorem peel_times_levels (t : DesignTree) :
  (∀ k, k < length (levels_and_designs t) →
        peel_times k (CTree t)
        = inr (CTree (mkDesignTree (drop k (levels_and_designs t))
                                   (other_designs t) (branches t))))
  ∧ (levels_and_designs t ≠ [] → branches t = [] →
     peel_times (length (levels_and_designs t)) (CTree t) = inl StopIteration)
  ∧ (levels_and_designs t ≠ [] →
     ∀ name first rest,
       branches t = (name, first) :: rest → DesignTree_len first ≠ 0 →
       peel_times (length (levels_and_designs t)) (CTree t)
       = inr (CBranches (branches t))).
Proof.
  split; [intros k; apply peel_times_below|]. split.
  - intros Hne Hb. rewrite peel_times_last by done. by rewrite Hb.
  - intros Hne name first rest Hb Hfirst. rewrite peel_times_last by done.
    rewrite Hb. by destruct (Nat.eqb_spec (DesignTree_len first) 0).
Qed.
End PeelFacts.

(** ** The recursion of the DesignTree constructor *)

Lemma for_each_ext {A S} (f g : S → A → result S) (xs : list A) (acc : S) :
  (∀ a x, x ∈ xs → f a x = g a x) →
  for_each f xs acc = for_each g xs acc.
Proof.
  revert acc. induction xs as [|x xs IH]; intros acc Hfg; simpl; [done|].
  rewrite Hfg by left. destruct (g acc x); simpl; [done|].
  apply IH. intros a y Hy. apply Hfg. by right.
Qed.

Section OdictFacts.
Context {A : Type}.
Implicit Types (d : list (string * A)) (k n : string).

Lemma odict_lookup_nil k : odict_lookup (@nil (string * A)) k = None.
Proof. done. Qed.

Lemma odict_lookup_cons d k n (v : A) :
  odict_lookup ((n, v) :: d) k
  = if String.eqb n k then Some v else odict_lookup d k.
Proof. unfold odict_lookup. simpl. by destruct (String.eqb n k). Qed.

Lemma odict_lookup_set d k n (v : A) :
  odict_lookup (odict_set d k v) n
  = if String.eqb k n then Some v else odict_lookup d n.
Proof.
  induction d as [|[k' v'] d IH]; simpl.
  - by rewrite odict_lookup_cons.
  - destruct (String.eqb_spec k' k) as [->|Hne].
    + rewrite !odict_lookup_cons. by destruct (String.eqb k n).
    + rewrite !odict_lookup_cons, IH.
      destruct (String.eqb_spec k' n) as [->|]; [|done].
      by destruct (String.eqb_spec k n) as [->|].
Qed.

Lemma odict_lookup_delete d k : odict_lookup (odict_delete d k) k = None.
Proof.
  induction d as [|[k' v'] d IH]; [done|]. unfold odict_delete in *. simpl.
  destruct (String.eqb_spec k' k) as [->|Hne]; simpl; [done|].
  rewrite odict_lookup_cons. by destruct (String.eqb_spec k' k).
Qed.

Lemma odict_delete_length d k :
  length (odict_delete d k) ≤ length d.
Proof.
  induction d as [|[k' v'] d IH]; [done|]. unfold odict_delete in *. simpl.
  destruct (String.eqb k' k); simpl; lia.
Qed.

Lemma odict_delete_shorter d k v :
  odict_lookup d k = Some v → length (odict_delete d k) < length d.
Proof.
  induction d as [|[k' v'] d IH]; [done|]. rewrite odict_lookup_cons.
  unfold odict_delete in *. simpl.
  destruct (String.eqb k' k); simpl.
  - intros _. pose proof (odict_delete_length d k). unfold odict_delete in *. lia.
  - intros Hd. apply IH in Hd. lia.
Qed.
End OdictFacts.

Section ConstructorFacts.
Context `{OrderingIface}.
Implicit Types (t b : DesignTree)
  (others : list (string * named_design DesignTree)).

Lemma DesignTree_init_fuel_inv fuel input others t :
  DesignTree_init_fuel fuel input others = inr t →
  ∃ bottom d bs levels' iv,
    last (iterate_levels input) = Some bottom
    ∧ bottom.2 !! 0 = Some d
    ∧ resolve_branches (construct_with fuel) d others = inr bs
    ∧ DesignTree_first_pass (iterate_levels input) = inr (levels', iv)
    ∧ name_truthy iv.1 = false
    ∧ t = mkDesignTree levels' others bs.
Proof.
  rewrite DesignTree_init_fuel_unfold. unfold getitem_last, getitem, construct_with.
  destruct (last (iterate_levels input)) as [bottom|]; simpl; [|done].
  destruct (bottom.2 !! 0) as [d|] eqn:Hd; simpl; [|done].
  destruct (resolve_branches _ d others) as [|bs] eqn:Hbs; simpl; [done|].
  destruct (DesignTree_first_pass _) as [|[levels' [name values]]]; simpl;
    [done|].
  destruct (name_truthy name) eqn:Hname; simpl; [done|]. intros [= <-].
  by exists bottom, d, bs, levels', (name, values).
Qed.

Lemma resolve_branches_ext c1 c2 d others :
  (∀ name alt, odict_lookup others name = Some alt →
               c1 alt (odict_delete others name)
               = c2 alt (odict_delete others name)) →
  resolve_branches c1 d others = resolve_branches c2 d others.
Proof.
  intros Hc. unfold resolve_branches.
  destruct (Design_is_heterogeneous d); [|done].
  destruct (seed_branches _ _); simpl; [done|].
  destruct (Design_branches d) as [names|]; [|done].
  apply for_each_ext. intros bs [| | |name] _; try done.
  destruct (bool_decide _); [done|].
  destruct (odict_lookup others name) as [alt|] eqn:Halt; [|done].
  by rewrite (Hc name alt).
Qed.

(** The result does not depend on the fuel once there is as much of it
    as there are named alternates. *)
Lemma DesignTree_init_fuel_enough fuel : ∀ input others,
  length others ≤ fuel →
  DesignTree_init_fuel fuel input others = DesignTree_init input others.
Proof.
  induction fuel as [fuel IH] using lt_wf_ind. intros input others Hlen.
  unfold DesignTree_init. rewrite !DesignTree_init_fuel_unfold.
  destruct (getitem_last _); simpl; [done|].
  destruct (getitem _ 0) as [|d]; simpl; [done|].
  rewrite (resolve_branches_ext _
             (match length others with
              | 0 => λ _ _, raise RecursionError
              | S fuel' => DesignTree_init_fuel fuel'
              end) d others); [done|].
  intros name alt Halt.
  pose proof (odict_delete_shorter others name alt Halt) as Hshort.
  destruct fuel as [|fuel]; [lia|].
  destruct (length others) as [|n] eqn:Hn; [lia|].
  rewrite (IH fuel) by lia. rewrite (IH n) by lia. done.
Qed.
End ConstructorFacts.

(** ** The branch map of a constructed tree *)

Section BranchFacts.
Context `{OrderingIface}.
Implicit Types (t b : DesignTree)
  (others : list (string * named_design DesignTree))
  (bs : list (string * DesignTree)).

Lemma other_designs_of_init fuel input others t :
  DesignTree_init_fuel fuel input others = inr t → other_designs t = others.
Proof.
  intros Hinit. apply DesignTree_init_fuel_inv in Hinit
    as (? & ? & ? & ? & ? & _ & _ & _ & _ & _ & ->). done.
Qed.

Section Loop.
Variable construct :
  named_design DesignTree → list (string * named_design DesignTree) →
  result DesignTree.
Variable others : list (string * named_design DesignTree).

Lemma branch_loop (names : list value) : ∀ bs0 bs,
  for_each (λ self_branches branch_name,
      match branch_name with
      | VStr name =>
          if bool_decide (is_Some (odict_lookup self_branches name))
          then inr self_branches
          else
            match odict_lookup others name with
            | None => raise KeyError
            | Some alternate =>
                let designs_to_pass := odict_delete others name in
                tree ← construct alternate designs_to_pass;
                inr (odict_set self_branches name tree)
            end
      | _ => raise KeyError
      end) names bs0 = inr bs →
  (∀ n b, odict_lookup bs0 n = Some b → built_from construct others n b) →
  (∀ n b, odict_lookup bs n = Some b → built_from construct others n b)
  ∧ (∀ n b, odict_lookup bs0 n = Some b → odict_lookup bs n = Some b)
  ∧ (∀ v, v ∈ names → ∃ n b, v = VStr n ∧ odict_lookup bs n = Some b).
Proof.
  induction names as [|v names IH]; intros bs0 bs; simpl.
  - intros [= <-] H0. repeat split; try done. by intros v ?%elem_of_nil.
  - destruct v as [| | |name]; simpl; try done.
    destruct (bool_decide (is_Some (odict_lookup bs0 name))) eqn:Hin; simpl.
    + intros Hrest H0. apply bool_decide_eq_true in Hin as [b0 Hb0].
      destruct (IH _ _ Hrest H0) as (Hall & Hmono & Hkeys).
      repeat split; try done.
      intros v [->|Hv]%elem_of_cons; [|by apply Hkeys].
      exists name, b0. split; [done|]. by apply Hmono.
    + apply bool_decide_eq_false in Hin.
      destruct (odict_lookup others name) as [alt|] eqn:Halt; simpl; [|done].
      destruct (construct alt (odict_delete others name)) as [|tree] eqn:Htree;
        simpl; [done|].
      intros Hrest H0.
      assert (∀ n b, odict_lookup (odict_set bs0 name tree) n = Some b →
                     built_from construct others n b) as H1.
      { intros n b. rewrite odict_lookup_set.
        destruct (String.eqb_spec name n) as [<-|_]; [|apply H0].
        intros [= <-]. by exists alt. }
      destruct (IH _ _ Hrest H1) as (Hall & Hmono & Hkeys).
      repeat split; try done.
      * intros n b Hn. apply Hmono. rewrite odict_lookup_set.
        destruct (String.eqb_spec name n) as [<-|_]; [|done].
        rewrite Hn in Hin. destruct Hin. by eexists.
      * intros v [->|Hv]%elem_of_cons; [|by apply Hkeys].
        exists name, tree. split; [done|]. apply Hmono.
        by rewrite odict_lookup_set, String.eqb_refl.
Qed.

Lemma resolve_branches_inv d bs :
  resolve_branches construct d others = inr bs →
  (Design_is_heterogeneous d = false → bs = [])
  ∧ (∀ n b, odict_lookup bs n = Some b → built_from construct others n b)
  ∧ (Design_is_heterogeneous d = true →
     ∀ names v, Design_branches d = Some names → v ∈ names →
                ∃ n b, v = VStr n ∧ odict_lookup bs n = Some b).
Proof.
  unfold resolve_branches.
  destruct (Design_is_heterogeneous d).
  - destruct (Design_branches d) as [names|] eqn:Hnames.
    + rewrite seed_branches_empty. simpl. intros Hloop.
      apply branch_loop in Hloop as (Hall & _ & Hkeys); [|done].
      split; [done|]. split; [done|]. intros _ names' v [= <-]. apply Hkeys.
    + destruct (seed_branches _ _); simpl; done.
  - intros [= <-]. repeat split; done.
Qed.
End Loop.

End BranchFacts.



(** ** What the bottom-up pass keeps *)

Section StructureFacts.
Context `{OrderingIface}.
Implicit Types (d : Design) (l level : Level).

Lemma first_pass_same_ivs d d' iv :
  Design_first_pass d = inr (d', iv) → same_ivs d d'.
Proof.
  unfold Design_first_pass. destruct (Design_all_conditions d); simpl; [done|].
  destruct (ordering_first_pass _ _) as [o iv']. by intros [= <- <-].
Qed.

Lemma same_ivs_extends d d' : same_ivs d d' → extends d d'.
Proof.
  intros (Hn & Hv & Hm & He). exists [], []. simpl.
  by rewrite !app_nil_r.
Qed.

Lemma extends_refl d : extends d d.
Proof. by apply same_ivs_extends. Qed.

Lemma extends_trans d1 d2 d3 : extends d1 d2 → extends d2 d3 → extends d1 d3.
Proof.
  intros (ns & vs & Hl & Hn & Hv & Hm & He) (ns' & vs' & Hl' & Hn' & Hv' & Hm' & He').
  exists (ns ++ ns'), (vs ++ vs').
  rewrite !length_app, Hn', Hv', Hn, Hv, fmap_app, <- !app_assoc.
  repeat split; [lia|congruence..].
Qed.

Lemma update_extends d (new : list (string * list value)) :
  extends d (Design_update d new.*1 new.*2).
Proof. exists new.*1, new.*2. by rewrite !length_fmap. Qed.

Lemma level_extends_refl l : level_extends l l.
Proof.
  split; [done|]. apply Forall_Forall2_diag, Forall_forall.
  intros d _. apply extends_refl.
Qed.

Lemma level_extends_trans l1 l2 l3 :
  level_extends l1 l2 → level_extends l2 l3 → level_extends l1 l3.
Proof.
  intros [Hn H12] [Hn' H23]. split; [congruence|].
  revert H23. generalize l3.2. induction H12 as [|d1 d2 ds1 ds2 Hd _ IH];
    intros ds3 H23.
  - by apply Forall2_nil_inv_l in H23 as ->.
  - apply Forall2_cons_inv_l in H23 as (d3 & ds3' & Hd' & H23 & ->).
    constructor; [by eapply extends_trans|by apply IH].
Qed.

Lemma passed_same_ivs (designs : list Design)
    (results : list (Design * (option string * list value))) :
  Forall2 (λ d r, Design_first_pass d = inr r) designs results →
  Forall2 same_ivs designs results.*1.
Proof.
  intros Hall. apply Forall2_fmap_r.
  eapply Forall2_impl; [done|]. intros d [d' iv]. apply first_pass_same_ivs.
Qed.

Lemma Forall2_same_ivs_extends (ds ds' : list Design) :
  Forall2 same_ivs ds ds' → Forall2 extends ds ds'.
Proof. intros Hall. eapply Forall2_impl; [done|]. apply same_ivs_extends. Qed.

Lemma climb_extends above : ∀ level passed top,
  climb level above = inr (passed, top) →
  Forall2 level_extends (level :: above) (passed ++ [top])
  ∧ (∀ l', head (passed ++ [top]) = Some l' →
           above ≠ [] → Forall2 same_ivs level.2 l'.2)
  ∧ (above = [] → top = level).
Proof.
  induction above as [|up above IH]; intros level passed top; simpl.
  - intros [= <- <-]. split; [|done]. repeat constructor. apply level_extends_refl.
  - destruct (level_first_pass level.2) as [|[designs' [ns vs]]] eqn:Hlevel;
      simpl; [done|].
    destruct (climb _ above) as [|[passed' top']] eqn:Hclimb; simpl; [done|].
    intros [= <- <-].
    apply level_first_pass_spec in Hlevel as (results & Hall & -> & -> & ->).
    apply IH in Hclimb as (Hrest & _ & _).
    apply passed_same_ivs in Hall. split; [|split; [|done]].
    + simpl. constructor.
      * split; [done|]. by apply Forall2_same_ivs_extends.
      * apply Forall2_cons_inv_l in Hrest as (l1 & k & Hl1 & Hk & Heq).
        rewrite Heq. constructor; [|done].
        eapply level_extends_trans; [|done]. split; [done|]. simpl.
        unfold update_level. change (List.map ?f ?l) with (f <$> l).
        apply Forall2_fmap_r, Forall_Forall2_diag, Forall_forall.
        intros d _. apply update_extends.
    + simpl. by intros l' [= <-] _.
Qed.

(** X7.  What [DesignTree.first_pass] leaves of the levels it was given:
    as many levels with the same names in the same order, and in each as
    many designs; every design keeps its IVs, design matrix and extra
    data, any IVs it gained coming after its own, as many names as value
    lists; the designs of the bottom level gain none. *)
Theorem first_pass_keeps_structure
    (levels levels' : list Level) (iv : option string * list value) :
  DesignTree_first_pass levels = inr (levels', iv) →
  Forall2 level_extends levels levels'
  ∧ ∀ bottom bottom',
      last levels = Some bottom → last levels' = Some bottom' →
      Forall2 same_ivs bottom.2 bottom'.2.
Proof.
  intros Hpass. unfold DesignTree_first_pass in Hpass.
  destruct (rev levels) as [|bottom above] eqn:Hrev; [done|].
  destruct (climb bottom above) as [|[passed top]] eqn:Hclimb; [done|].
  simpl in Hpass.
  destruct (top_first_pass top.2) as [|[top_designs iv']] eqn:Htop; [done|].
  simpl in Hpass. injection Hpass as <- <-.
  apply climb_extends in Hclimb as (Hall & Hbottom & Htopeq).
  apply top_first_pass_spec in Htop as (results & Hres & -> & _).
  apply passed_same_ivs in Hres.
  assert (levels = rev (bottom :: above)) as ->.
  { by rewrite <- Hrev, rev_involutive. }
  assert (Forall2 level_extends (bottom :: above)
                  (passed ++ [(top.1, results.*1)])) as Hall'.
  { apply Forall2_app_inv_r in Hall as (l1 & l2 & H1 & H2 & Heq).
    rewrite Heq. apply Forall2_app; [done|].
    apply Forall2_cons_inv_r in H2 as (x & l2' & Hx & Hnil & ->).
    apply Forall2_nil_inv_r in Hnil as ->. constructor; [|constructor].
    eapply level_extends_trans; [done|]. split; [done|].
    by apply Forall2_same_ivs_extends. }
  split.
  - replace ((top.1, results.*1) :: rev passed)
      with (rev (passed ++ [(top.1, results.*1)])).
    2: { by rewrite rev_app_distr. }
    rewrite !rev_reverse. by apply Forall2_reverse.
  - intros b b'. rewrite <- (rev_involutive (_ :: rev passed)).
    rewrite !last_rev_head. simpl. rewrite rev_involutive.
    intros [= <-] Hhead.
    destruct above as [|up above].
    + rewrite (Htopeq eq_refl) in *.
      apply Forall2_length in Hall. rewrite length_app in Hall.
      destruct passed; [|simpl in Hall; lia].
      simpl in Hhead. by injection Hhead as <-.
    + destruct passed as [|p passed].
      { apply Forall2_length in Hall. simpl in Hall. lia. }
      simpl in Hhead. injection Hhead as <-.
      by apply (Hbottom p).
Qed.
End StructureFacts.

Lemma first_pass_keeps_structure_witness :
  ∃ levels' iv,
    DesignTree_first_pass sample_two_levels = inr (levels', iv)
    ∧ Forall2 level_extends sample_two_levels levels'.
Proof.
  destruct (DesignTree_first_pass sample_two_levels) as [e|[levels' iv]] eqn:Hpass.
  - vm_compute in Hpass. discriminate.
  - exists levels', iv. split; [reflexivity|].
    exact (proj1 (first_pass_keeps_structure sample_two_levels levels' iv Hpass)).
Defined.

(** ** Designs without a matrix, and branch names *)

Section DesignFacts.
Context `{OrderingIface}.
Implicit Types (d self : Design).

Lemma all_Some_pools (ivs : list (option (list value))) :
  ¬ Exists (λ vs, vs = None) ivs → ivs = Some <$> (default [] <$> ivs).
Proof.
  induction ivs as [|[l|] ivs IH]; intros Hex; simpl; [done| |].
  - f_equal. apply IH. intros Hex'. apply Hex. by right.
  - destruct Hex. by left.
Qed.

(** X8.  A Design constructed without a design matrix passes
    [first_pass]: its names are the declared ones, as many as its value
    lists; it hands its ordering the full cross of its IVs, as many
    conditions as the product of the lengths of the value lists (one empty
    condition when there is no IV), and returns the pair the ordering
    returns, the ordering being the one given or a new [Shuffle]. *)
Theorem crossed_design_passes
    (ivs : list (string * option (list value)))
    (ordering0 : option Ordering) (extra : option dict) d :
  Design_init ivs None ordering0 extra = inr d →
  iv_names d = ivs.*1
  ∧ length (iv_names d) = length (iv_values d)
  ∧ ordering d = default Shuffle_new ordering0
  ∧ extra_data d = default ∅ extra
  ∧ ∃ conditions,
      Design_all_conditions d = inr conditions
      ∧ length conditions
        = foldr (λ iv n, length (default [] iv.2) * n) 1 ivs
      ∧ (ivs = [] → conditions = [∅])
      ∧ Design_first_pass d
        = inr (mkDesign (iv_names d) (iv_values d) None (extra_data d)
                        (ordering_first_pass (ordering d) conditions).1,
               (ordering_first_pass (ordering d) conditions).2).
Proof.
  unfold Design_init.
  destruct (bool_decide _) eqn:Hcheck; [done|]. intros [= <-]. simpl.
  apply bool_decide_eq_false in Hcheck.
  assert (¬ Exists (λ vs, vs = None) (List.map snd ivs)) as Hall by tauto.
  apply all_Some_pools in Hall.
  set (pools := default [] <$> List.map snd ivs) in Hall.
  assert (length (Itertools.product pools)
          = foldr (λ iv n, length (default [] iv.2) * n) 1 ivs) as Hcount.
  { rewrite length_product. unfold pools. clear.
    induction ivs as [|iv ivs IH]; [done|]. simpl. f_equal. exact IH. }
  split; [done|]. split; [by rewrite !length_map|].
  split; [by destruct ordering0|]. split; [done|].
  unfold Design_first_pass, Design_all_conditions. simpl.
  rewrite Hall, full_cross_values. eexists. split; [done|]. split; [|split].
  - by rewrite length_map.
  - intros ->. by vm_compute.
  - simpl. by destruct (ordering_first_pass _ _).
Qed.

Lemma ivs_lookup_from (names : list string)
    (values : list (option (list value))) key found :
  key ∉ names →
  foldl (λ found p, if String.eqb p.1 key then Some p.2 else found)
        found (zip names values) = found.
Proof.
  revert values found. induction names as [|n names IH]; intros [|v values] found;
    simpl; try done.
  intros [Hne Hk]%not_elem_of_cons.
  destruct (String.eqb_spec n key) as [->|_]; [done|]. by apply IH.
Qed.

Lemma ivs_lookup_last (names : list string)
    (values : list (option (list value))) key i vs : ∀ found,
  names !! i = Some key → values !! i = Some vs →
  key ∉ drop (S i) names →
  foldl (λ found p, if String.eqb p.1 key then Some p.2 else found)
        found (zip names values) = Some vs.
Proof.
  revert values i. induction names as [|n names IH]; intros values i found;
    [done|].
  destruct values as [|v values]; [by destruct i|].
  destruct i as [|i]; simpl.
  - intros [= ->] [= ->] Hlast. rewrite String.eqb_refl.
    by apply ivs_lookup_from.
  - intros Hn Hv Hlast. by eapply IH.
Qed.

(** X9.  [branches] against [is_heterogeneous].  A design that is not
    heterogeneous has no branch names.  For a design that declares an IV
    named [design], [branches] is the value list of the last such IV that
    has a value list at its place, and the design is heterogeneous. *)
Theorem branches_of_design self :
  (Design_is_heterogeneous self = false → Design_branches self = Some [])
  ∧ ∀ i vs,
      iv_names self !! i = Some heterogeneous_design_iv_name →
      iv_values self !! i = Some vs →
      heterogeneous_design_iv_name ∉ drop (S i) (iv_names self) →
      Design_is_heterogeneous self = true ∧ Design_branches self = vs.
Proof.
  unfold Design_is_heterogeneous, Design_branches, ivs_lookup. split.
  - intros Hhet%bool_decide_eq_false. by rewrite ivs_lookup_from.
  - intros i vs Hn Hv Hlast. split.
    + apply bool_decide_eq_true. by eapply list_elem_of_lookup_2.
    + by rewrite (ivs_lookup_last _ _ _ i vs).
Qed.
End DesignFacts.

Lemma crossed_design_passes_witness :
  ∃ d, Design_init [("x", Some [VInt 1; VInt 2])] None None None = inr d
       ∧ iv_names d = ["x"].
Proof.
  destruct (Design_init [("x", Some [VInt 1; VInt 2])] None None None)
    as [e|d] eqn:Hinit.
  - vm_compute in Hinit. discriminate.
  - exists d. split; [reflexivity|].
    exact (proj1 (crossed_design_passes _ None None d Hinit)).
Defined.

(** ** The outcomes of decoding a design matrix *)

Section OutcomeFacts.
Context `{OrderingIface}.

(** The check of [_parse_design_matrix] finds a column exactly when one
    has a non-empty declared list of another length than its codes. *)
Lemma check_finds_mismatch (self : Design) (m : Np.ndarray) :
  existsb (λ p : option (list value) * list Z,
             values_truthy p.1
             && negb (length (default [] p.1) =? length p.2))
          (zip (iv_values self) (List.map Np.unique (Np.transpose m))) = true
  ↔ ∃ j v vs,
      j < Np.ncols m
      ∧ iv_values self !! j = Some (Some (v :: vs))
      ∧ length (v :: vs) ≠ spec_distinct_codes (Np.column m j).
Proof.
  rewrite existsb_exists. split.
  - intros ([declared codes] & Hin & Hbad).
    apply list_elem_of_In, list_elem_of_lookup in Hin as [j Hj].
    apply zip_lookup in Hj as [Hd Hc].
    assert (j < Np.ncols m) as Hlt.
    { apply lookup_lt_Some in Hc. by rewrite values_per_factor_length in Hc. }
    rewrite values_per_factor_lookup in Hc by done. injection Hc as <-.
    cbn [fst snd] in Hbad. destruct declared as [[|v vs]|]; try done.
    exists j, v, vs. split; [done|]. split; [done|].
    rewrite <- length_unique. cbn [values_truthy default andb] in Hbad.
    apply negb_true_iff, Nat.eqb_neq in Hbad. exact Hbad.
  - intros (j & v & vs & Hj & Hd & Hne).
    exists (Some (v :: vs), Np.unique (Np.column m j)). split.
    + apply list_elem_of_In, list_elem_of_lookup. exists j.
      apply zip_lookup. split; [done|]. by apply values_per_factor_lookup.
    + cbn [fst snd values_truthy default andb].
      rewrite length_unique. apply negb_true_iff, Nat.eqb_neq. exact Hne.
Qed.

End OutcomeFacts.


(** ** A constructed section tree follows its cursors *)

Section AlignedFacts.
Context `{OrderingIface}.
Implicit Types (self child s c : ExperimentSection).

Lemma section_aligned_unfold s :
  section_aligned s
  ↔ is_bottom_level s = (DesignTree_len (tree s) =? 1)
    ∧ (∃ designs, levels_and_designs (tree s) !! 0 = Some (level s, designs))
    ∧ Forall (λ c, DesignTree_next (tree s) = inr (CTree (tree c))
                   ∧ section_aligned c) (children s).
Proof.
  destruct s as [m t lvl bottom cs hs hf nl nd]. simpl.
  assert ((fix all (cs : list ExperimentSection) : Prop :=
             match cs with
             | [] => True
             | c :: cs' =>
                 (DesignTree_next t = inr (CTree (tree c)) ∧ section_aligned c)
                 ∧ all cs'
             end) cs
          ↔ Forall (λ c, DesignTree_next t = inr (CTree (tree c))
                         ∧ section_aligned c) cs) as ->; [|done].
  induction cs as [|c cs IH].
  - split; [constructor|done].
  - rewrite Forall_cons, IH. done.
Qed.

Lemma section_aligned_set_context_map s m :
  section_aligned (set_context_map s m) ↔ section_aligned s.
Proof. by destruct s. Qed.

Lemma aligned_level_nonempty s :
  section_aligned s → levels_and_designs (tree s) ≠ [].
Proof.
  intros (_ & [designs Hd] & _)%section_aligned_unfold.
  by destruct (levels_and_designs (tree s)).
Qed.

(** The cursor of a child is one shorter than its parent's. *)
Lemma peeled_tree_shorter (t t' : DesignTree) :
  levels_and_designs t ≠ [] →
  DesignTree_next t = inr (CTree t') →
  DesignTree_len t' + 1 = DesignTree_len t.
Proof.
  intros Hne Hnext.
  destruct (peel_by_explicit_levels t) as (Hone & Hbranches & Htree & _).
  destruct (decide (DesignTree_len t = 1)) as [H1|H1].
  { rewrite (Hone H1) in Hnext. done. }
  destruct (decide (length (levels_and_designs t) = 1)) as [H2|H2].
  { destruct (Hbranches H1 H2) as [Hb _]. rewrite Hb in Hnext. done. }
  destruct (Htree H1 H2) as (t0 & Ht0 & _ & _ & _ & Hlen).
  rewrite Ht0 in Hnext. injection Hnext as <-. by apply Hlen.
Qed.

Lemma aligned_chain_length s : ∀ parents chain,
  section_aligned s →
  chain ∈ generate_data parents s →
  length chain = DesignTree_len (tree s) + length parents.
Proof.
  induction s as [s IH] using ExperimentSection_children_ind.
  intros parents chain Hs Hchain.
  pose proof (aligned_level_nonempty s Hs) as Hne.
  apply section_aligned_unfold in Hs as (_ & _ & Hcs).
  rewrite generate_data_unfold in Hchain.
  apply list_elem_of_In, in_flat_map in Hchain as (c & Hc & Hchain).
  apply list_elem_of_In in Hc.
  eapply Forall_forall in IH; [|done].
  eapply Forall_forall in Hcs as [Hnext Hac]; [|done].
  pose proof (peeled_tree_shorter _ _ Hne Hnext) as Hlen.
  destruct (is_bottom_level c) eqn:Hbot.
  - apply section_aligned_unfold in Hac as (Hb & _).
    rewrite Hbot in Hb. symmetry in Hb. apply Nat.eqb_eq in Hb.
    apply list_elem_of_In in Hchain.
    apply list_elem_of_singleton in Hchain as ->. simpl. lia.
  - apply list_elem_of_In in Hchain.
    rewrite (IH _ _ Hac Hchain). simpl. lia.
Qed.

Lemma aligned_number_children s :
  section_aligned (number_children s) ↔ section_aligned s.
Proof.
  unfold number_children. destruct (next_level s) as [name|] eqn:Hn; [|done].
  rewrite !section_aligned_unfold. simpl.
  assert (Forall (λ c, DesignTree_next (tree s) = inr (CTree (tree c))
                       ∧ section_aligned c)
                 (imap (λ i child,
                          set_context_map child
                            (dict_update (context_map child)
                               {[ name := VInt (Z.of_nat (i + 1)) ]}))
                       (children s))
          ↔ Forall (λ c, DesignTree_next (tree s) = inr (CTree (tree c))
                         ∧ section_aligned c) (children s)) as ->; [|done].
  rewrite !Forall_lookup. split.
  - intros Hall i c Hc.
    specialize (Hall i (set_context_map c
                          (dict_update (context_map c)
                             {[ name := VInt (Z.of_nat (i + 1)) ]}))).
    rewrite list_lookup_imap, Hc in Hall. specialize (Hall eq_refl).
    by rewrite section_aligned_set_context_map in Hall.
  - intros Hall i c'. rewrite list_lookup_imap.
    destruct (children s !! i) as [c|] eqn:Hc; [|done].
    intros [= <-]. rewrite section_aligned_set_context_map. simpl.
    by apply (Hall i).
Qed.

Section Construction.
Variable new_section : ChainMap → dict → cursor → result ExperimentSection.
Variable order : Design → dict → result (list dict).
Hypothesis new_section_aligned : ∀ parents own (cur : cursor) child,
  new_section parents own cur = inr child →
  cur = CTree (tree child) ∧ section_aligned child.

Lemma append_child_with_aligned parents own t s to_start kwargs s' :
  root_kept own t s →
  append_child_with new_section parents s to_start kwargs = inr s' →
  root_kept own t s'.
Proof.
  intros (Hs & Ht & Hown) Happ.
  apply append_child_with_inv in Happ as (child & (peeled & Hpeel & Hchild) & ->).
  apply new_section_aligned in Hchild as [-> Hchild].
  destruct (number_children_fields
              (set_children s (if to_start then child :: children s
                               else children s ++ [child]))) as (Ht' & Hm' & _).
  split; [|split; [by rewrite Ht'|by rewrite Hm']].
  apply aligned_number_children.
  apply section_aligned_unfold in Hs as (Hb & Hl & Hcs).
  apply section_aligned_unfold. simpl. split; [done|]. split; [done|].
  destruct to_start.
  - by constructor.
  - apply Forall_app. split; [done|]. by repeat constructor.
Qed.

Lemma append_design_with_aligned parents own t s design to_start s' :
  root_kept own t s →
  append_design_with new_section order parents s design to_start = inr s' →
  root_kept own t s'.
Proof.
  intros Hs. unfold append_design_with.
  destruct (order _ _) as [|new_contexts]; simpl; [done|].
  apply (for_each_invariant (root_kept own t)); [done|].
  intros a x a' Ha _.
  destruct (bind_append_child _ _) as [|[to_start' kwargs]]; simpl; [done|].
  by apply append_child_with_aligned.
Qed.
End Construction.

Lemma ExperimentSection_init_fuel_aligned fuel order :
  ∀ parents own (cur : cursor) s,
    ExperimentSection_init_fuel fuel order parents own cur = inr s →
    cur = CTree (tree s) ∧ section_aligned s ∧ context_map s = own.
Proof.
  induction fuel as [|fuel IH]; intros parents own cur s; [done|].
  simpl. destruct cur as [t|]; [|done].
  unfold DesignTree_getitem, getitem.
  destruct (levels_and_designs t !! 0) as [level0|] eqn:H0; simpl; [|done].
  destruct (DesignTree_len t =? 1) eqn:Hlen.
  - intros [= <-]. simpl. split; [done|]. split; [|done].
    rewrite Hlen. split; [done|]. split; [|done].
    exists level0.2. by destruct level0.
  - destruct (levels_and_designs t !! 1) as [level1|] eqn:H1; simpl; [|done].
    intros Hloop.
    eapply (for_each_invariant (root_kept own t)) in Hloop.
    + destruct Hloop as (Hs & <- & Hown). done.
    + split; [|done]. simpl. rewrite Hlen.
      split; [done|]. split; [|done]. exists level0.2. by destruct level0.
    + intros a x a' Ha _. apply append_design_with_aligned; [|done].
      intros parents' own' c' child Hchild.
      apply IH in Hchild as (Hc & Ha' & _). done.
Qed.

End AlignedFacts.


(** The sample: one trial in one block in the session, each numbered. *)
Example constructed_sample_session :
  ∃ s, ExperimentSection_init sample_duck_order [] ∅ (CTree sample_session_tree)
       = inr s
       ∧ generate_data [] s
         = [ [ {[ "trial" := VInt 1 ]}; {[ "block" := VInt 1 ]}; ∅ ] ].
Proof. eexists. split; by vm_compute. Qed.

(** ** The recursion of the section constructor *)

Lemma for_each_ext_invariant {A S} (I : S → Prop) (f g : S → A → result S)
    (xs : list A) (acc : S) :
  I acc →
  (∀ a x, I a → f a x = g a x) →
  (∀ a x a', I a → g a x = inr a' → I a') →
  for_each f xs acc = for_each g xs acc.
Proof.
  intros Hacc Hfg Hstep. revert acc Hacc.
  induction xs as [|x xs IH]; intros acc Hacc; simpl; [done|].
  rewrite Hfg by done. destruct (g acc x) as [|acc'] eqn:Hg; simpl; [done|].
  apply IH. by eapply Hstep.
Qed.

Section SectionFuel.
Context `{OrderingIface}.
Implicit Types (s : ExperimentSection).

Lemma next_cursor_shorter (t : DesignTree) (peeled : cursor) :
  levels_and_designs t ≠ [] →
  DesignTree_next t = inr peeled →
  cursor_len peeled < DesignTree_len t.
Proof.
  intros Hne Hnext. destruct peeled as [t'|b]; simpl.
  - pose proof (peeled_tree_shorter t t' Hne Hnext). lia.
  - rewrite DesignTree_len_unfold.
    destruct (levels_and_designs t); [done|]. simpl. lia.
Qed.

Section Agree.
Variables ns1 ns2 : ChainMap → dict → cursor → result ExperimentSection.
Variable order : Design → dict → result (list dict).
Variable t : DesignTree.
Hypothesis agree : ∀ parents kwargs peeled,
  DesignTree_next t = inr peeled →
  ns1 parents kwargs peeled = ns2 parents kwargs peeled.

Lemma append_child_with_agree parents s to_start kwargs :
  tree s = t →
  append_child_with ns1 parents s to_start kwargs
  = append_child_with ns2 parents s to_start kwargs.
Proof.
  intros Ht. unfold append_child_with. rewrite Ht.
  destruct (DesignTree_next t) as [|peeled] eqn:Hnext; simpl; [done|].
  by rewrite (agree _ _ peeled).
Qed.

Lemma append_child_with_tree parents s to_start kwargs s' :
  append_child_with ns2 parents s to_start kwargs = inr s' → tree s' = tree s.
Proof.
  intros (child & _ & ->)%append_child_with_inv.
  by destruct (number_children_fields
                 (set_children s (if to_start then child :: children s
                                  else children s ++ [child]))) as [-> _].
Qed.

Lemma append_design_with_agree parents s design to_start :
  tree s = t →
  append_design_with ns1 order parents s design to_start
  = append_design_with ns2 order parents s design to_start.
Proof.
  intros Ht. unfold append_design_with.
  destruct (order _ _) as [|new_contexts]; simpl; [done|].
  apply (for_each_ext_invariant (λ s, tree s = t)); [done| |].
  - intros a x Ha.
    destruct (bind_append_child _ _) as [|[to_start' kwargs]]; simpl; [done|].
    by apply append_child_with_agree.
  - intros a x a' Ha.
    destruct (bind_append_child _ _) as [|[to_start' kwargs]]; simpl; [done|].
    intros Happ. apply append_child_with_tree in Happ. congruence.
Qed.

Lemma append_design_with_tree parents s design to_start s' :
  append_design_with ns2 order parents s design to_start = inr s' →
  tree s' = tree s.
Proof.
  unfold append_design_with.
  destruct (order _ _) as [|new_contexts]; simpl; [done|].
  apply (for_each_invariant (λ a, tree a = tree s)); [done|].
  intros a x a' Ha _.
  destruct (bind_append_child _ _) as [|[to_start' kwargs]]; simpl; [done|].
  intros Happ. apply append_child_with_tree in Happ. congruence.
Qed.
End Agree.

Lemma ExperimentSection_init_fuel_enough order fuel :
  ∀ parents own (cur : cursor),
    S (cursor_len cur) ≤ fuel →
    ExperimentSection_init_fuel fuel order parents own cur
    = ExperimentSection_init order parents own cur.
Proof.
  induction fuel as [fuel IH] using lt_wf_ind. intros parents own cur Hfuel.
  unfold ExperimentSection_init.
  destruct fuel as [|fuel]; [lia|]. simpl.
  destruct cur as [t|]; [|done]. simpl in Hfuel.
  unfold DesignTree_getitem, getitem.
  destruct (levels_and_designs t !! 0) as [level0|] eqn:H0; simpl; [|done].
  destruct (DesignTree_len t =? 1); [done|].
  destruct (levels_and_designs t !! 1) as [level1|]; simpl; [|done].
  assert (levels_and_designs t ≠ []) as Hne.
  { by destruct (levels_and_designs t). }
  apply (for_each_ext_invariant (λ s, tree s = t)); [done| |].
  - intros a x Ha. apply append_design_with_agree with (t := t); [|done].
    intros parents' kwargs peeled Hnext.
    pose proof (next_cursor_shorter t peeled Hne Hnext) as Hshort.
    rewrite (IH fuel) by lia. rewrite (IH (DesignTree_len t)) by lia. done.
  - intros a x a' Ha Happ. apply append_design_with_tree in Happ. congruence.
Qed.

End SectionFuel.

(** ** Levels named by their design specifications *)

Section SpecFacts.
Context `{OrderingIface}.
Context {design_spec : Type} (from_dict : design_spec → result from_dict_result).

Lemma level_loop (ss : list design_spec) (rs : list from_dict_result) :
  Forall2 (λ s r, from_dict s = inr r) ss rs →
  Forall (λ n, n ≠ "") (omap result_name rs) →
  ∀ (name0 : option string) (ds0 : list Design),
    (∀ n, name0 = Some n → n ≠ "") →
    let body := (λ (acc : option string * list Design) design_spec,
      let '(name, designs) := acc in
      name_and_design ← from_dict design_spec;
      match name_and_design with
      | Unnamed d => inr (name, designs ++ [d])
      | Named n d =>
          if name_truthy name && negb (String.eqb n (default "" name))
          then raise ValueError
          else inr (Some n, designs ++ [d])
      end) in
    let all := option_list name0 ++ omap result_name rs in
    ((∀ a b, a ∈ all → b ∈ all → a = b) →
     for_each body ss (name0, ds0)
     = inr (last all, ds0 ++ (result_design <$> rs)))
    ∧ ((∃ a b, a ∈ all ∧ b ∈ all ∧ a ≠ b) →
       for_each body ss (name0, ds0) = inl ValueError).
Proof.
  induction 1 as [|s r ss rs Hs _ IH]; intros Hne name0 ds0 Hname0; cbn zeta.
  - simpl. rewrite !app_nil_r. split.
    + intros _. by destruct name0.
    + intros (a & b & Ha & Hb & Hab). destruct name0 as [n0|]; simpl in *.
      * apply list_elem_of_singleton in Ha, Hb. congruence.
      * by apply elem_of_nil in Ha.
  - cbn [for_each]. rewrite Hs. simpl.
    destruct r as [n d|d]; simpl in Hne |- *.
    + apply Forall_cons in Hne as [Hn Hne].
      specialize (IH Hne (Some n) (ds0 ++ [d])). cbn zeta in IH.
      destruct IH as [IHa IHb]; [by intros ? [= <-]|].
      destruct name0 as [n0|]; simpl.
      * assert (n0 ≠ "") as Hn0 by by apply Hname0.
        destruct (String.eqb_spec n0 "") as [|_]; [done|]. simpl.
        destruct (String.eqb_spec n n0) as [->|Hdiff]; simpl.
        -- split.
           ++ intros Hall. rewrite IHa, <- app_assoc; [done|].
              intros a b Ha Hb. apply Hall; by right.
           ++ intros (a & b & Ha & Hb & Hab). apply IHb.
              exists a, b. split_and!; [| |done].
              ** apply elem_of_cons in Ha as [->|Ha]; [left|done].
              ** apply elem_of_cons in Hb as [->|Hb]; [left|done].
        -- split; [|done].
           intros Hall. exfalso. apply Hdiff.
           apply Hall; [right; left|left].
      * split.
        -- intros Hall. by rewrite IHa, <- app_assoc.
        -- intros Hex. by apply IHb.
    + specialize (IH Hne name0 (ds0 ++ [d]) Hname0). cbn zeta in IH.
      destruct IH as [IHa IHb]. split.
      * intros Hall. by rewrite IHa, <- app_assoc.
      * intros Hex. by apply IHb.
Qed.

Lemma same_or_different (l : list string) :
  (∀ a b, a ∈ l → b ∈ l → a = b) ∨ (∃ a b, a ∈ l ∧ b ∈ l ∧ a ≠ b).
Proof.
  destruct (decide (Forall (λ a, Forall (λ b, a = b) l) l)) as [Hall|Hnot].
  - left. intros a b Ha Hb.
    rewrite Forall_forall in Hall. specialize (Hall a Ha).
    rewrite Forall_forall in Hall. by apply Hall.
  - right. apply not_Forall_Exists in Hnot; [|apply _].
    apply Exists_exists in Hnot as (a & Ha & Hnot).
    apply not_Forall_Exists in Hnot; [|apply _].
    apply Exists_exists in Hnot as (b & Hb & Hab).
    by exists a, b.
Qed.

Lemma specs_loop (specs : list (spec_item design_spec))
    (parsed : list (spec_item from_dict_result)) :
  Forall2 (parsed_as design_spec from_dict) specs parsed →
  Forall (λ p, Forall (λ n, n ≠ "") (item_names p)) parsed →
  ∀ yielded : list (option string * design_entry),
    let body := (λ (yielded : list (option string * design_entry)) spec,
      match spec with
      | SpecDict spec =>
          name_and_design ← from_dict spec;
          match name_and_design with
          | Unnamed d => inr (yielded ++ [(None, OneDesign d)])
          | Named n d => inr (yielded ++ [(Some n, OneDesign d)])
          end
      | SpecList spec =>
          '(name, designs) ← level_of_specs design_spec from_dict spec;
          inr (yielded ++ [(name, DesignList designs)])
      end) in
    (Forall (λ p, ∀ a b, a ∈ item_names p → b ∈ item_names p → a = b) parsed →
     for_each body specs yielded = inr (yielded ++ (yielded_pair <$> parsed)))
    ∧ (Exists (λ p, ∃ a b, a ∈ item_names p ∧ b ∈ item_names p ∧ a ≠ b)
              parsed →
       for_each body specs yielded = inl ValueError).
Proof.
  induction 1 as [|item p specs parsed Hp _ IH]; intros Hne yielded; cbn zeta.
  - split.
    + intros _. simpl. by rewrite app_nil_r.
    + intros Hex. by apply Exists_nil in Hex.
  - apply Forall_cons in Hne as [Hne1 Hne].
    specialize (IH Hne). cbn zeta in IH. cbn [for_each].
    destruct item as [s|ss], p as [r|rs]; try done; simpl in Hp.
    + rewrite Hp. simpl.
      assert (∀ a b, a ∈ item_names (SpecDict r) →
                     b ∈ item_names (SpecDict r) → a = b) as Hsame.
      { intros a b Ha Hb. destruct r; simpl in Ha, Hb.
        - apply list_elem_of_singleton in Ha, Hb. congruence.
        - by apply elem_of_nil in Ha. }
      destruct (IH (yielded ++ [yielded_pair (SpecDict r)])) as [IHa IHb].
      destruct r as [n d|d]; simpl in IHa, IHb |- *.
      all: split;
        [intros Hall; apply Forall_cons in Hall as [_ Hall];
         by rewrite IHa, <- app_assoc
        |intros Hex; apply Exists_cons in Hex as [(a & b & Ha & Hb & Hab)|Hex];
         [by exfalso; apply Hab, Hsame|by apply IHb]].
    + destruct (level_loop ss rs Hp Hne1 None [] (λ n Hn, match Hn with end))
        as [Hgood Hbad]. simpl in Hgood, Hbad.
      destruct (same_or_different (omap result_name rs)) as [Hsame|Hdiff].
      * unfold level_of_specs. rewrite (Hgood Hsame). simpl.
        destruct (IH (yielded ++ [yielded_pair (SpecList rs)])) as [IHa IHb].
        simpl in IHa, IHb. split.
        -- intros Hall. apply Forall_cons in Hall as [_ Hall].
           etrans; [exact (IHa Hall)|]. by rewrite <- app_assoc.
        -- intros Hex.
           apply Exists_cons in Hex as [(a & b & Ha & Hb & Hab)|Hex];
             [by exfalso; apply Hab, Hsame|by apply IHb].
      * unfold level_of_specs. rewrite (Hbad Hdiff). simpl. split; [|done].
        intros Hall. apply Forall_cons in Hall as [Hsame _].
        destruct Hdiff as (a & b & Ha & Hb & Hab).
        by exfalso; apply Hab, Hsame.
Qed.

(** X13.  [DesignTree._design_specs_to_designs]: when [Design.from_dict]
    accepts every design specification, the generator yields one pair
    per element of [specs], in order: for a dict the name and the design
    [from_dict] returned; for a sequence of dicts the designs in the
    order written with the name the named ones carry ([None] when none
    is named), provided they all carry the same name.  As soon as one
    sequence holds two specifications with different names the call
    raises [ValueError]. *)
Theorem design_specs_level_names
    (specs : list (spec_item design_spec))
    (parsed : list (spec_item from_dict_result)) :
  Forall2 (parsed_as design_spec from_dict) specs parsed →
  Forall (λ p, Forall (λ n, n ≠ "") (item_names p)) parsed →
  (Forall (λ p, ∀ a b, a ∈ item_names p → b ∈ item_names p → a = b) parsed →
   design_specs_to_designs design_spec from_dict specs
   = inr (yielded_pair <$> parsed))
  ∧ (Exists (λ p, ∃ a b, a ∈ item_names p ∧ b ∈ item_names p ∧ a ≠ b)
            parsed →
     design_specs_to_designs design_spec from_dict specs = inl ValueError).
Proof.
  intros Hparsed Hne.
  exact (specs_loop specs parsed Hparsed Hne []).
Qed.

End SpecFacts.

Lemma design_specs_level_names_witness :
  let parsed :=
    [SpecDict (Named "session" sample_design);
     SpecList [Named "block" sample_design; Unnamed sample_design;
               Named "block" sample_design];
     SpecDict (Unnamed sample_design)] in
  design_specs_to_designs from_dict_result inr parsed
  = inr [(Some "session", OneDesign sample_design);
         (Some "block",
          DesignList [sample_design; sample_design; sample_design]);
         (None, OneDesign sample_design)].
Proof.
  intros parsed.
  apply (design_specs_level_names inr parsed parsed).
  - repeat constructor.
  - repeat constructor; done.
  - repeat constructor; intros a b Ha Hb; simpl in Ha, Hb;
      repeat (apply elem_of_cons in Ha as [->|Ha]);
      repeat (apply elem_of_cons in Hb as [->|Hb]);
      try done; by apply elem_of_nil in Ha || by apply elem_of_nil in Hb.
Defined.
